(** * Temperature-ramp controller: a shallow embedding of [PID_control_NOT-COMPLETE.py]

    The program is a single Python loop that polls an absorbance read-out,
    computes windowed statistics over the recorded samples and drives a
    five-state controller (fast linear ramp, PID-controlled ramp, hold,
    cool, done).

    Numbers.  Every quantity of the program is a Python [float], that is an
    IEEE-754 binary64 value with round-to-nearest-even arithmetic.  They are
    embedded as Rocq's primitive [float]s, which are the same format with the
    same rounding, so that the definitions below evaluate to the very values
    the program computes.  General facts about comparisons and about
    subtracting zero are derived from the specification of the primitive
    operations in [FloatAxioms].  The one operation of the program that is
    not IEEE arithmetic is [**], which CPython computes with the [pow] of
    the C library: the module [CPython] below gives the slope statistic
    for any C library, and the model of the control loop takes the square
    as the rounded product.

    Effects.  The two I/O boundaries (reading the absorbance, sending the
    commands) and the wall clock are inputs and outputs of the model: one
    iteration of the loop receives the readings recorded during its polling
    period together with the clock values seen by the statistics calls, and
    produces the controller variables that are sent and logged. *)

From Stdlib Require Import Ascii Permutation Sorted.
From Stdlib Require Import ZArith String List Bool Lia PeanoNat.
From Stdlib Require Import Floats.
Import ListNotations.

Set Warnings "-inexact-float".

Open Scope float_scope.

(** ** Python built-ins on floats *)

Module Py.

(** [max(a, b)]: the later argument replaces the running maximum only when
    it compares strictly greater. *)
Definition max (a b : float) : float := if a <? b then b else a.

(** [min(a, b)]: the later argument replaces the running minimum only when
    it compares strictly smaller. *)
Definition min (a b : float) : float := if b <? a then b else a.

(** Truth value of a float: zero of either sign is false, anything else
    (NaN included) is true. *)
Definition truthy (x : float) : bool := negb (x =? 0).

(** [v or 0.0] for [v] a float or [None]. *)
Definition or_zero (v : option float) : float :=
  match v with
  | Some x => if truthy x then x else 0
  | None => 0
  end.

(** [sum(xs)]: accumulation from the left, starting from zero, as the
    built-in does up to CPython 3.11; later versions carry a compensation
    term that can change the last bits of a sum.  The general statements
    below do not depend on it; the values of the sample windows are those
    of the plain accumulation. *)
Definition sum (xs : list float) : float := fold_left PrimFloat.add xs 0.

(** [max(vals)] and [min(vals)] of a non-empty list, scanning from the
    left. *)
Definition max_list (v0 : float) (vs : list float) : float := fold_left max vs v0.
Definition min_list (v0 : float) (vs : list float) : float := fold_left min vs v0.

(** Conversion of a list length to a float, as the division [sum(xs)/n]
    performs it. *)
Definition of_len (n : nat) : float :=
  PrimFloat.of_uint63 (Uint63.of_Z (Z.of_nat n)).

End Py.

(** ** Configuration *)

Definition START_TEMP : float := 45.0.
Definition MAX_TEMP   : float := 100.0.
Definition MAX_RAMP   : float := 10.0.
Definition FAST_RAMP  : float := 2.0.
Definition COOL_RAMP  : float := -1.0.

Definition CHECK_PERIOD_S : float := 30.
Definition SLOPE_WIN_SEC  : float := 30.
Definition EXPECTED_MAX_ABS : float := 1.0.
Definition SWITCH_TIME_HRS  : float := 5.0.
Definition S_REF : float := EXPECTED_MAX_ABS / (SWITCH_TIME_HRS * 60.0).

Definition STABILITY_WINDOW_MIN   : float := 10.
Definition STABILITY_MAX_RANGE_AU : float := 0.05.
Definition STABILITY_MAX_SLOPE    : float := 0.005.
Definition PLATEAU_TICKS          : nat := 3.

Definition HISTORY_MAXLEN : Z := 100000.

(** ** Data utilities *)

(** A recorded sample: time stamp in seconds and absorbance. *)
Definition Reading : Type := float * float.

(** [history.append(r)] on a [deque(maxlen=100000)]: the oldest entry is
    dropped once the capacity is exceeded. *)
Definition deque_append (history : list Reading) (r : Reading) : list Reading :=
  let h := history ++ [r] in
  if (HISTORY_MAXLEN <? Z.of_nat (length h))%Z then tl h else h.

(** The samples of the trailing window: [[(t,a) for (t,a) in history if t >= cutoff]]. *)
Definition in_window (history : list Reading) (cutoff : float) : list Reading :=
  filter (fun r => cutoff <=? fst r) history.

(** [slope_over_window(history, window_sec)] as the model of the control
    loop uses it, with [now] the value of [time.time()] at the call.  [None]
    is Python's [None], and [(x-mx)**2] is the correctly rounded product of
    the difference with itself.  The program computes [**] through the
    [pow] of the C library, which need not round correctly and can make the
    call raise: [CPython.slope_over_window] below is the statistic on any C
    library, and [slope_over_window_rounded] shows that this definition is
    its value on a library whose [pow] is correctly rounded, wherever it
    returns. *)
Definition slope_over_window (now : float) (history : list Reading) (window_sec : float)
  : option float :=
  let cutoff := now - window_sec in
  let pts := in_window history cutoff in
  if Nat.ltb (length pts) 6 then None
  else
    let t0 := match pts with r :: _ => fst r | [] => 0 end in
    let xs := map (fun r => (fst r - t0) / 60.0) pts in
    let ys := map snd pts in
    let n := Py.of_len (length xs) in
    let mx := Py.sum xs / n in
    let my := Py.sum ys / n in
    let num := Py.sum (map (fun xy => (fst xy - mx) * (snd xy - my)) (combine xs ys)) in
    let den := Py.sum (map (fun x => (x - mx) * (x - mx)) xs) in
    if negb (den =? 0) then Some (num / den) else None.

(** [range_over_window(history, window_min)]. *)
Definition range_over_window (now : float) (history : list Reading) (window_min : float)
  : option float :=
  let cutoff := now - window_min * 60 in
  match map snd (in_window history cutoff) with
  | [] => None
  | v :: vs => Some (Py.max_list v vs - Py.min_list v vs)
  end.

(** ** The slope statistic on a given C library

    [(x-mx)**2] is [float.__pow__] with the exponent 2.  CPython answers
    the special operands itself (a NaN, an infinity, a zero, a one) and
    hands the absolute value of every other operand to the [pow] of the C
    library; when the call leaves a range error it raises [OverflowError]
    (and [ValueError] for any other error), which nothing in the program
    catches.  The C library is no part of the program: what its [pow]
    returns for the exponent 2 is a parameter of the definitions below. *)

Module CPython.

(** The exceptions that [float.__pow__] raises after a call of the C
    library. *)
Inductive exception : Type := OverflowError | ValueError.

(** The evaluation of an expression either raises or returns. *)
Inductive outcome (A : Type) : Type :=
| Raised (e : exception)
| Returned (a : A).
Arguments Raised {A} e.
Arguments Returned {A} a.

(** What a call of the C library leaves: its value, and [errno]. *)
Record c_call : Type := mkCall { c_value : float; c_errno : Z }.

Definition ERANGE : Z := 34.

Section Libm.

(** [pow2 x] is the call [pow(x, 2.0)] of the C library, made with [errno]
    at zero. *)
Variable pow2 : float -> c_call.

(** [errno] after CPython's adjustment of it: an infinite result counts as
    a range error also where the library does not report one, and a range
    error with a zero result (an underflow) does not count. *)
Definition adjust_erange (r : c_call) : Z :=
  if (c_errno r =? 0)%Z then
    if (c_value r =? infinity) || (c_value r =? neg_infinity) then ERANGE else 0%Z
  else if (c_errno r =? ERANGE)%Z && (c_value r =? 0) then 0%Z
  else c_errno r.

(** [x ** 2] for a float [x]. *)
Definition float_pow2 (x : float) : outcome float :=
  if is_nan x then Returned x
  else if is_infinity x then Returned (abs x)
  else if x =? 0 then Returned 0
  else
    let iv := if x <? 0 then - x else x in
    if iv =? 1 then Returned 1
    else
      let r := pow2 iv in
      let errno := adjust_erange r in
      if (errno =? 0)%Z then Returned (c_value r)
      else if (errno =? ERANGE)%Z then Raised OverflowError
      else Raised ValueError.

(** [sum] over a generator, from the accumulator [acc]: the items are
    evaluated one after the other, and the first that raises ends the
    sum. *)
Fixpoint sum_from (acc : float) (items : list (outcome float)) : outcome float :=
  match items with
  | [] => Returned acc
  | Raised e :: _ => Raised e
  | Returned v :: rest => sum_from (acc + v) rest
  end.

(** [slope_over_window(history, window_sec)], with [now] the value of
    [time.time()] at the call: it raises what [**] raises, and otherwise
    returns a float or [None]. *)
Definition slope_over_window (now : float) (history : list Reading) (window_sec : float)
  : outcome (option float) :=
  let cutoff := now - window_sec in
  let pts := in_window history cutoff in
  if Nat.ltb (length pts) 6 then Returned None
  else
    let t0 := match pts with r :: _ => fst r | [] => 0 end in
    let xs := map (fun r => (fst r - t0) / 60.0) pts in
    let ys := map snd pts in
    let n := Py.of_len (length xs) in
    let mx := Py.sum xs / n in
    let my := Py.sum ys / n in
    let num := Py.sum (map (fun xy => (fst xy - mx) * (snd xy - my)) (combine xs ys)) in
    match sum_from 0 (map (fun x => float_pow2 (x - mx)) xs) with
    | Raised e => Raised e
    | Returned den => Returned (if negb (den =? 0) then Some (num / den) else None)
    end.

End Libm.

(** A C library whose [pow(x, 2.0)] is the correctly rounded square and
    which reports errors through the floating-point flags only, leaving
    [errno] alone. *)
Definition rounded_square (x : float) : c_call := mkCall (x * x) 0.

End CPython.

(** ** The controller *)

Inductive State : Type :=
| STATE_LINEAR
| STATE_NONLINEAR
| STATE_HOLD
| STATE_COOL
| STATE_DONE.

(** The two PID locals, [integral] and [prev_error].  They are bound
    together, by the first pass through the PID branch. *)
Record PidVars : Type := mkPid { integral : float; prev_error : float }.

(** The local variables of [control_loop] that survive from one iteration
    to the next.  [pid = None] stands for ["integral" not in locals()]. *)
Record Ctx : Type := mkCtx {
  state : State;
  temp : float;
  ramp : float;
  plateau_counter : nat;
  pid : option PidVars
}.

(** The locals as [control_loop] sets them before its [while] loop. *)
Definition initial : Ctx :=
  mkCtx STATE_LINEAR START_TEMP FAST_RAMP 0 None.

(** The values of [integral] and [prev_error] that the PID branch works on:
    the bound ones, or the zeros it binds them to when they are not bound. *)
Definition pid_locals (c : Ctx) : PidVars :=
  match pid c with
  | Some v => v
  | None => mkPid 0 0
  end.

(** PID gains, local to the PID branch. *)
Definition Kp_pid : float := 80.0.
Definition Ki_pid : float := 10.0.
Definition Kd_pid : float := 5.0.

(** Clock values and recorded readings of one control period. *)
Record Period : Type := mkPeriod {
  polled : list Reading;    (* successful readings of the polling sub-loop *)
  t_slope : float;          (* time.time() in slope_over_window(history, SLOPE_WIN_SEC) *)
  t_range : float;          (* time.time() in range_over_window, HOLD only *)
  t_slope10 : float         (* time.time() in the ten-minute slope_over_window, HOLD only *)
}.

Definition dt_min : float := CHECK_PERIOD_S / 60.0.

(** The [if]/[elif] chain under "STATE LOGIC": the new locals and [notes]. *)
Definition state_logic (c : Ctx) (history : list Reading) (p : Period) (s_meas : float)
  : Ctx * string :=
  match state c with
  | STATE_LINEAR =>
      let ramp1 := FAST_RAMP in
      let temp1 := temp c + ramp1 * (CHECK_PERIOD_S / 60.0) in
      if S_REF <=? s_meas then
        let ramp2 := 0 in
        let temp2 := temp1 - 2 * ramp2 * (CHECK_PERIOD_S / 60.0) in
        (mkCtx STATE_NONLINEAR temp2 ramp2 (plateau_counter c) (pid c),
         "→ proportional control"%string)
      else
        (mkCtx STATE_LINEAR temp1 ramp1 (plateau_counter c) (pid c), EmptyString)
  | STATE_NONLINEAR =>
      let v := pid_locals c in
      let e := S_REF - s_meas in
      let integral1 := integral v + e * dt_min in
      let derivative := (e - prev_error v) / dt_min in
      let integral2 := Py.max (Py.min integral1 0.01) (-0.01) in
      let ramp1 := Kp_pid * e + Ki_pid * integral2 + Kd_pid * derivative in
      let ramp2 := Py.max (-10.0) (Py.min MAX_RAMP ramp1) in
      let temp1 := temp c + ramp2 * dt_min in
      let temp2 := Py.max START_TEMP (Py.min MAX_TEMP temp1) in
      let v' := mkPid integral2 e in
      let counter :=
        if ((MAX_TEMP <=? temp2) && (0 <? ramp2)) || ((MAX_RAMP <=? ramp2) && (0 <? e))
        then S (plateau_counter c) else O in
      if Nat.leb PLATEAU_TICKS counter then
        (mkCtx STATE_HOLD MAX_TEMP 0 counter (Some v'), "Reached limit → HOLD"%string)
      else
        (mkCtx STATE_NONLINEAR temp2 ramp2 counter (Some v'), EmptyString)
  | STATE_HOLD =>
      let ramp1 := 0 in
      let temp1 := MAX_TEMP in
      let rng := range_over_window (t_range p) history STABILITY_WINDOW_MIN in
      let s10 := Py.or_zero (slope_over_window (t_slope10 p) history (STABILITY_WINDOW_MIN * 60)) in
      if match rng with
         | Some r => (r <? STABILITY_MAX_RANGE_AU) && (abs s10 <? STABILITY_MAX_SLOPE)
         | None => false
         end
      then
        (mkCtx STATE_COOL START_TEMP COOL_RAMP (plateau_counter c) (pid c),
         "Stable → COOL"%string)
      else
        (mkCtx STATE_HOLD temp1 ramp1 (plateau_counter c) (pid c), EmptyString)
  | STATE_COOL =>
      let ramp1 := COOL_RAMP in
      let temp1 := START_TEMP in
      if temp1 <=? START_TEMP then
        (mkCtx STATE_DONE START_TEMP 0 (plateau_counter c) (pid c),
         "Reached 20 °C → done."%string)
      else
        (mkCtx STATE_COOL temp1 ramp1 (plateau_counter c) (pid c), EmptyString)
  | STATE_DONE => (c, EmptyString)
  end.

(** One line of the log, which repeats what is sent to the temperature
    application: the locals after the state logic, the measured slope and
    the note. *)
Record LogLine : Type := mkLog {
  log_ctx : Ctx;
  log_slope : float;
  log_notes : string
}.

(** The polling sub-loop: every successful reading is appended. *)
Definition record_period (history : list Reading) (p : Period) : list Reading :=
  fold_left deque_append (polled p) history.

(** The slope handed to the state logic: [slope_over_window(...) or 0.0]. *)
Definition measured_slope (history : list Reading) (p : Period) : float :=
  Py.or_zero (slope_over_window (t_slope p) history SLOPE_WIN_SEC).

(** The [while True] loop of [control_loop], run over the control periods
    that the environment supplies; it stops after the iteration that
    leaves [state] at [STATE_DONE]. *)
Fixpoint control_loop_from (c : Ctx) (history : list Reading) (periods : list Period)
  : list LogLine :=
  match periods with
  | [] => []
  | p :: ps =>
      let history' := record_period history p in
      let s_meas := measured_slope history' p in
      let (c', notes) := state_logic c history' p s_meas in
      mkLog c' s_meas notes ::
      match state c' with
      | STATE_DONE => []
      | _ => control_loop_from c' history' ps
      end
  end.

Definition control_loop (periods : list Period) : list LogLine :=
  control_loop_from initial [] periods.

(** ** Vocabulary of the statements *)

(** The successor of a phase in the order LINEAR, NONLINEAR, HOLD, COOL, DONE. *)
Definition next_state (s : State) : State :=
  match s with
  | STATE_LINEAR => STATE_NONLINEAR
  | STATE_NONLINEAR => STATE_HOLD
  | STATE_HOLD => STATE_COOL
  | STATE_COOL => STATE_DONE
  | STATE_DONE => STATE_DONE
  end.

(** The locals before the [i]-th iteration of a run, given its log. *)
Definition ctx_before (log : list LogLine) (i : nat) : option Ctx :=
  nth_error (initial :: map log_ctx log) i.

(** Membership in a closed interval, with the program's own comparison. *)
Definition within (lo hi x : float) : bool := (lo <=? x) && (x <=? hi).

(** The locals that some run of the loop can hold at the top of an
    iteration. *)
Inductive reachable : Ctx -> Prop :=
| reach_initial : reachable initial
| reach_tick c history p s_meas :
    reachable c -> state c <> STATE_DONE ->
    reachable (fst (state_logic c history p s_meas)).

(** ** Vocabulary of the PID phase *)

(** The quantities of one PID update, named as the design names them, for
    the PID locals [v], the temperature target [T] and the measured slope
    [s] at the start of the iteration. *)
Definition pid_error (s : float) : float := S_REF - s.

Definition pid_integral (v : PidVars) (s : float) : float :=
  Py.max (Py.min (integral v + pid_error s * dt_min) 0.01) (-0.01).

Definition pid_derivative (v : PidVars) (s : float) : float :=
  (pid_error s - prev_error v) / dt_min.

Definition pid_ramp (v : PidVars) (s : float) : float :=
  Py.max (-10)
    (Py.min MAX_RAMP
       (Kp_pid * pid_error s + Ki_pid * pid_integral v s + Kd_pid * pid_derivative v s)).

Definition pid_temp (T : float) (v : PidVars) (s : float) : float :=
  Py.max START_TEMP (Py.min MAX_TEMP (T + pid_ramp v s * dt_min)).

(** The plateau condition of an iteration, as the program tests it. *)
Definition plateau_test (T : float) (v : PidVars) (s : float) : bool :=
  (MAX_TEMP <=? pid_temp T v s) && (0 <? pid_ramp v s)
  || (MAX_RAMP <=? pid_ramp v s) && (0 <? pid_error s).

(** The plateau condition in the words of the design: the target is at
    [MAX_TEMP] with a positive computed ramp, or the ramp is at [MAX_RAMP]
    with a positive error. *)
Definition plateau_condition (T : float) (v : PidVars) (s : float) : Prop :=
  (pid_temp T v s = MAX_TEMP /\ (0 <? pid_ramp v s) = true) \/
  (pid_ramp v s = MAX_RAMP /\ (0 <? pid_error s) = true).

(** Iteration [j] of a run is a PID iteration that meets the plateau
    condition. *)
Definition qualifying (log : list LogLine) (j : nat) : Prop :=
  exists c l,
    ctx_before log j = Some c /\ nth_error log j = Some l /\
    state c = STATE_NONLINEAR /\
    plateau_condition (temp c) (pid_locals c) (log_slope l).

(** ** Vocabulary of the invariants and of the LINEAR phase *)

(** While in LINEAR nothing has touched the plateau counter or bound the
    PID locals; while in the PID phase the counter is below the threshold,
    and it is zero as long as the PID locals are unbound. *)
Definition counters_ok (c : Ctx) : Prop :=
  (state c = STATE_LINEAR -> plateau_counter c = 0%nat /\ pid c = None) /\
  (state c = STATE_NONLINEAR ->
     plateau_counter c < PLATEAU_TICKS /\ (pid c = None -> plateau_counter c = 0%nat)).

(** No iteration before the [i]-th measured a slope of [S_REF] or more. *)
Definition below_reference (log : list LogLine) (i : nat) : Prop :=
  forall j l, j < i -> nth_error log j = Some l -> (S_REF <=? log_slope l) = false.

(** ** Vocabulary of the slope statistic *)









(** The buffer is in time order: no sample is older than one before it. *)
Definition time_ordered (history : list Reading) : Prop :=
  forall i j ri rj, i <= j ->
    nth_error history i = Some ri -> nth_error history j = Some rj ->
    (fst ri <=? fst rj) = true.

(** ** The controller with an explicit reset *)

(** The controller as the design words it: the context carries the integral
    and the previous error as fields, and they are reset to zero at the
    transition from LINEAR into the PID phase, and nowhere else. *)
Record ResetCtx : Type := mkReset {
  rs_state : State;
  rs_temp : float;
  rs_ramp : float;
  rs_counter : nat;
  rs_pid : PidVars
}.

Definition tick_explicit_reset (c : ResetCtx) (history : list Reading) (p : Period)
  (s_meas : float) : ResetCtx * string :=
  match rs_state c with
  | STATE_LINEAR =>
      let T := rs_temp c + FAST_RAMP * dt_min in
      if S_REF <=? s_meas then
        (mkReset STATE_NONLINEAR T 0 (rs_counter c) (mkPid 0 0),
         "→ proportional control"%string)
      else (mkReset STATE_LINEAR T FAST_RAMP (rs_counter c) (rs_pid c), EmptyString)
  | STATE_NONLINEAR =>
      let v := rs_pid c in
      let v' := mkPid (pid_integral v s_meas) (pid_error s_meas) in
      let counter :=
        if plateau_test (rs_temp c) v s_meas then S (rs_counter c) else O in
      if Nat.leb PLATEAU_TICKS counter then
        (mkReset STATE_HOLD MAX_TEMP 0 counter v', "Reached limit → HOLD"%string)
      else
        (mkReset STATE_NONLINEAR (pid_temp (rs_temp c) v s_meas) (pid_ramp v s_meas)
           counter v', EmptyString)
  | STATE_HOLD =>
      match range_over_window (t_range p) history STABILITY_WINDOW_MIN with
      | Some r =>
          let s10 :=
            Py.or_zero
              (slope_over_window (t_slope10 p) history (STABILITY_WINDOW_MIN * 60)) in
          if (r <? STABILITY_MAX_RANGE_AU) && (abs s10 <? STABILITY_MAX_SLOPE) then
            (mkReset STATE_COOL START_TEMP COOL_RAMP (rs_counter c) (rs_pid c),
             "Stable → COOL"%string)
          else (mkReset STATE_HOLD MAX_TEMP 0 (rs_counter c) (rs_pid c), EmptyString)
      | None => (mkReset STATE_HOLD MAX_TEMP 0 (rs_counter c) (rs_pid c), EmptyString)
      end
  | STATE_COOL =>
      (mkReset STATE_DONE START_TEMP 0 (rs_counter c) (rs_pid c),
       "Reached 20 °C → done."%string)
  | STATE_DONE => (c, EmptyString)
  end.

(** What one iteration shows: phase, target, ramp, counter, the PID state
    once the LINEAR phase is over, the measured slope and the note. *)
Record View : Type := mkView {
  v_state : State;
  v_temp : float;
  v_ramp : float;
  v_counter : nat;
  v_pid : option PidVars;
  v_slope : float;
  v_notes : string
}.

Definition after_linear (s : State) (v : PidVars) : option PidVars :=
  match s with
  | STATE_LINEAR => None
  | _ => Some v
  end.

Definition view (l : LogLine) : View :=
  let c := log_ctx l in
  mkView (state c) (temp c) (ramp c) (plateau_counter c)
    (after_linear (state c) (pid_locals c)) (log_slope l) (log_notes l).

Definition reset_view (c : ResetCtx) (s_meas : float) (notes : string) : View :=
  mkView (rs_state c) (rs_temp c) (rs_ramp c) (rs_counter c)
    (after_linear (rs_state c) (rs_pid c)) s_meas notes.

Fixpoint reset_loop_from (c : ResetCtx) (history : list Reading) (periods : list Period)
  : list View :=
  match periods with
  | [] => []
  | p :: ps =>
      let history' := record_period history p in
      let s_meas := measured_slope history' p in
      let (c', notes) := tick_explicit_reset c history' p s_meas in
      reset_view c' s_meas notes ::
      match rs_state c' with
      | STATE_DONE => []
      | _ => reset_loop_from c' history' ps
      end
  end.

(** The explicit-reset controller, started with PID fields [garbage]: they
    are not meaningful before the reset. *)
Definition reset_loop (garbage : PidVars) (periods : list Period) : list View :=
  reset_loop_from (mkReset STATE_LINEAR START_TEMP FAST_RAMP 0 garbage) [] periods.

(** The program's locals and the explicit-reset context describe the same
    controller: same phase, target, ramp and counter; PID locals unbound
    during LINEAR; from then on the locals the PID branch works on are the
    fields of the context. *)
Definition same_controller (c : Ctx) (r : ResetCtx) : Prop :=
  state c = rs_state r /\ temp c = rs_temp r /\ ramp c = rs_ramp r /\
  plateau_counter c = rs_counter r /\
  (state c = STATE_LINEAR -> pid c = None) /\
  (state c <> STATE_LINEAR -> pid_locals c = rs_pid r).

(** ** Sample runs *)

(** A control period in which no reading could be taken. *)
Definition quiet_period : Period := mkPeriod [] 0 0 0.

(** The [k]-th control period of a run with six readings, five seconds
    apart, that start from [a0] and change by [step] from one to the next;
    the statistics are computed at the end of the period. *)
Definition sampled_period (k : nat) (a0 step : float) : Period :=
  let base := Py.of_len k * 30 in
  mkPeriod (map (fun j => (base + 5 * j, a0 + step * j)) [1; 2; 3; 4; 5; 6])
           (base + 30) (base + 30) (base + 30).

(** A period in which the read-out shows a steady absorbance of 0.5. *)
Definition steady_period (k : nat) : Period := sampled_period k 0.5 0.

(** A complete experiment: the absorbance rises during the first period,
    falls during the next three, and is steady from then on. *)
Definition experiment : list Period :=
  [sampled_period 0 2 0.125; sampled_period 1 2.75 (-0.125);
   sampled_period 2 2 (-0.125); sampled_period 3 1.25 (-0.125)]
  ++ map steady_period (seq 4 26).

(** A shorter run: two steady periods, then a rising absorbance. *)
Definition warmup : list Period :=
  [steady_period 0; steady_period 1; sampled_period 2 0.5 0.125].

(** Locals of a controller in HOLD, and a period whose statistics are
    computed at 300 s without new readings. *)
Definition holding : Ctx := mkCtx STATE_HOLD MAX_TEMP 0 3 (Some (mkPid 0.01 1.5)).


(** Six readings, one minute apart, without trend but spread over 0.06. *)
Definition noisy_window : list Reading :=
  [(0, 0.5); (60, 0.56); (120, 0.5); (180, 0.5); (240, 0.56); (300, 0.5)].

(** Six readings on a line of slope one per minute. *)
Definition six_points : list Reading :=
  [(0, 0); (60, 1); (120, 2); (180, 3); (240, 4); (300, 5)].

(** The read-out goes blank after the first four periods of [experiment]:
    the buffer keeps their readings, and ten minutes after the last of them
    the statistics are computed without any new one. *)
Definition blackout_history : list Reading :=
  fold_left record_period (firstn 4 experiment) [].
Definition blackout_period : Period := mkPeriod [] 720 720 720.


(** A run in which the absorbance rises during the first period and the
    read-out then shows a number too large for a float, which reads as
    infinity. *)
Definition glitch : list Period :=
  [sampled_period 0 2 0.125; sampled_period 1 infinity 0].

(** Locals of a controller in the PID phase that has run before. *)
Definition regulating : Ctx :=
  mkCtx STATE_NONLINEAR 60 1 0 (Some (mkPid 0.004 0.002)).

(** [n] readings of the absorbance [a], [step] seconds apart, from the
    time [t] on. *)
Fixpoint polled_every (step : float) (n : nat) (t a : float) : list Reading :=
  match n with
  | O => []
  | S n' => (t, a) :: polled_every step n' (t + step) a
  end.

(** The readings of a long experiment: one every tenth of a second, six
    more than the buffer holds. *)
Definition long_record : list Reading :=
  polled_every 0.1 (Z.to_nat (HISTORY_MAXLEN + 6)) 0 0.5.

(** Time order of a buffer, decided. *)
Fixpoint ordered_b (history : list Reading) : bool :=
  match history with
  | [] => true
  | r :: rest => forallb (fun r' => fst r <=? fst r') (r :: rest) && ordered_b rest
  end.

(** Time order of a buffer, decided from one sample to the next. *)
Fixpoint ascending_b (history : list Reading) : bool :=
  match history with
  | [] => true
  | r :: rest =>
      match rest with
      | [] => fst r <=? fst r
      | r' :: _ => (fst r <=? fst r') && ascending_b rest
      end
  end.

(** The phase and the temperature target of the last lines of a log. *)
Definition tail_targets (n : nat) (log : list LogLine) : list (State * float) :=
  map (fun l => (state (log_ctx l), temp (log_ctx l))) (skipn n log).

(** The phase, the temperature target and the ramp of the last lines of a
    log: what these iterations send to the temperature application. *)
Definition tail_commands (n : nat) (log : list LogLine) : list (State * float * float) :=
  map (fun l => (state (log_ctx l), temp (log_ctx l), ramp (log_ctx l))) (skipn n log).

(** ** Sorting and the median *)

(** A stable insertion sort by a strict comparison [lt]: an element goes in
    front of the first one that is not smaller than it.  For a comparison
    that orders the elements (integers, floats that are numbers) this is the
    list that [sorted] and [list.sort] return, which are stable. *)
Fixpoint insert_by {A : Type} (lt : A -> A -> bool) (x : A) (l : list A) : list A :=
  match l with
  | [] => [x]
  | y :: r => if lt y x then y :: insert_by lt x r else x :: y :: r
  end.

Definition sort_by {A : Type} (lt : A -> A -> bool) (l : list A) : list A :=
  fold_right (insert_by lt) [] l.

Module Statistics.

(** [statistics.median(data)] for non-empty [data]: the middle element of
    the sorted data, or the mean of the two middle elements. *)
Definition median (data : list float) : float :=
  let data := sort_by PrimFloat.ltb data in
  let n := length data in
  if Nat.odd n then nth (n / 2) data 0
  else
    let i := (n / 2)%nat in
    (nth (i - 1) data 0 + nth i data 0) / 2.

End Statistics.

(** [median_last_seconds(history, seconds)], with [now] the value of
    [time.time()] at the call. *)
Definition median_last_seconds (now : float) (history : list Reading) (seconds : float)
  : option float :=
  let cutoff := now - seconds in
  let vals := map snd (in_window history cutoff) in
  match vals with
  | [] => None
  | _ :: _ => Some (Statistics.median vals)
  end.

(** A float that is a number. *)
Definition is_number (x : float) : bool := negb (is_nan x).

(** The buffer after the polling sub-loops of a sequence of control
    periods, starting from the empty [deque]. *)
Definition history_after (periods : list Period) : list Reading :=
  fold_left record_period periods [].

(** The last [n] elements of a list. *)
Definition lastn {A : Type} (n : nat) (l : list A) : list A :=
  skipn (length l - n) l.

(** ** Vocabulary of the run-time invariants *)

(** The least number of iterations after which a run can be in a phase:
    one to leave LINEAR, three more to count a plateau, one for the
    stability gate, one to finish. *)
Definition min_iterations (s : State) : nat :=
  match s with
  | STATE_LINEAR => 0
  | STATE_NONLINEAR => 1
  | STATE_HOLD => 4
  | STATE_COOL => 5
  | STATE_DONE => 6
  end.

(** The same count for given locals, the plateau counter included. *)
Definition iterations_needed (c : Ctx) : nat :=
  match state c with
  | STATE_NONLINEAR => 1 + plateau_counter c
  | s => min_iterations s
  end.

(** A float that is neither NaN nor infinite. *)
Definition is_finite_number (x : float) : bool := abs x <? infinity.

(** ** The read-out text *)

(** Text of a UI element, as a list of characters.  The model covers ASCII
    text: a character is a byte, [\d] is one of the ten digits and white
    space is what [str.isspace] accepts below 128. *)
Definition Text : Type := list ascii.

(** Regular expressions, as far as [NUM_PATTERN] needs them. *)
Inductive regex : Type :=
| ReNone
| ReEps
| ReChar (a : ascii)
| ReDigit
| ReCat (r s : regex)
| ReAlt (r s : regex)
| ReStar (r : regex).

Definition re_opt (r : regex) : regex := ReAlt r ReEps.
Definition re_plus (r : regex) : regex := ReCat r (ReStar r).

(** [NUM_PATTERN = re.compile(r"^-?\d+\.\d{1,4}$")], between its anchors;
    [\d{1,4}] is one digit and up to three optional ones. *)
Definition NUM_PATTERN : regex :=
  ReCat (re_opt (ReChar "-"))
    (ReCat (re_plus ReDigit)
       (ReCat (ReChar ".")
          (ReCat ReDigit
             (re_opt (ReCat ReDigit (re_opt (ReCat ReDigit (re_opt ReDigit)))))))).

Definition is_digit (a : ascii) : bool :=
  let n := nat_of_ascii a in (48 <=? n)%nat && (n <=? 57)%nat.

(** Matching by derivatives: [nullable r] tells whether [r] accepts the
    empty text, [derive a r] accepts what [r] accepts after an [a]. *)
Fixpoint nullable (r : regex) : bool :=
  match r with
  | ReNone | ReChar _ | ReDigit => false
  | ReEps | ReStar _ => true
  | ReCat r s => nullable r && nullable s
  | ReAlt r s => nullable r || nullable s
  end.

Fixpoint derive (a : ascii) (r : regex) : regex :=
  match r with
  | ReNone | ReEps => ReNone
  | ReChar b => if Ascii.eqb a b then ReEps else ReNone
  | ReDigit => if is_digit a then ReEps else ReNone
  | ReCat r s =>
      if nullable r then ReAlt (ReCat (derive a r) s) (derive a s)
      else ReCat (derive a r) s
  | ReAlt r s => ReAlt (derive a r) (derive a s)
  | ReStar r => ReCat (derive a r) (ReStar r)
  end.

Fixpoint full_match (r : regex) (s : Text) : bool :=
  match s with
  | [] => nullable r
  | a :: t => full_match (derive a r) t
  end.

(** [pattern.match(s)] for a pattern anchored with [^] and [$]: the whole
    text matches, or the whole text but a final newline. *)
Definition pattern_match (r : regex) (s : Text) : bool :=
  full_match r s ||
  match rev s with
  | a :: t => Ascii.eqb a "010" && full_match r (rev t)
  | [] => false
  end.

(** [str.strip()]. *)
Definition is_space (a : ascii) : bool :=
  let n := nat_of_ascii a in
  (9 <=? n)%nat && (n <=? 13)%nat || (28 <=? n)%nat && (n <=? 32)%nat.

Fixpoint lstrip (s : Text) : Text :=
  match s with
  | a :: t => if is_space a then lstrip t else s
  | [] => []
  end.

Definition strip (s : Text) : Text := rev (lstrip (rev (lstrip s))).

(** A UI element: its text ([None] when the control has none) and the top
    left corner of its rectangle. *)
Record Element : Type := mkElement {
  window_text : option Text;
  rect_top : Z;
  rect_left : Z
}.

(** [(el.window_text() or "").strip()]. *)
Definition stripped_text (el : Element) : Text :=
  strip (match window_text el with
         | Some s => s
         | None => []
         end).

(** [read_absorbance(el)]; [py_float] stands for the conversion [float(s)]
    of a matching text. *)
Definition read_absorbance (py_float : Text -> float) (el : Element) : option float :=
  let s := stripped_text el in
  if pattern_match NUM_PATTERN s then Some (py_float s) else None.

(** The polling sub-loop of one control period: each pass reads the
    element as it is at that moment and records the value, with the clock,
    when there is one. *)
Definition poll (py_float : Text -> float) (history : list Reading)
  (passes : list (float * Element)) : list Reading :=
  fold_left
    (fun h pass =>
       match read_absorbance py_float (snd pass) with
       | Some val => deque_append h (fst pass, val)
       | None => h
       end)
    passes history.

(** The readings that the passes of a polling sub-loop yield. *)
Definition readings_of (py_float : Text -> float) (passes : list (float * Element))
  : list Reading :=
  flat_map
    (fun pass =>
       match read_absorbance py_float (snd pass) with
       | Some val => [(fst pass, val)]
       | None => []
       end)
    passes.

(** Comparison of the sort keys [(top, left)], as tuples compare. *)
Definition key_lt (a b : Z * Z) : bool :=
  (fst a <? fst b)%Z || ((fst a =? fst b)%Z && (snd a <? snd b)%Z).

Definition sort_key (el : Element) : Z * Z := (rect_top el, rect_left el).

(** [get_absorbance_element(win)], given the descendants of the window;
    [None] stands for the [RuntimeError]. *)
Definition get_absorbance_element (descendants : list Element) : option Element :=
  let candidates :=
    map (fun el => (sort_key el, el))
      (filter (fun el => pattern_match NUM_PATTERN (stripped_text el)) descendants) in
  match sort_by (fun x y => key_lt (fst x) (fst y)) candidates with
  | [] => None
  | c :: _ => Some (snd c)
  end.

Definition TEMPAPP_EDIT_REF_X : Z := 1312.
Definition TEMPAPP_EDIT_REF_Y : Z := 800.

(** [min(items, key=key)] of a non-empty sequence: a later item replaces
    the running minimum only when its key is strictly smaller. *)
Definition min_by_key {A : Type} (key : A -> Z) (first : A) (rest : list A) : A :=
  fold_left (fun best e => if (key e <? key best)%Z then e else best) rest first.

(** The key of [_pick_tempapp_edit]: the distance to the reference point,
    horizontal plus vertical. *)
Definition edit_distance (e : Element) : Z :=
  Z.abs (rect_left e - TEMPAPP_EDIT_REF_X) + Z.abs (rect_top e - TEMPAPP_EDIT_REF_Y).

(** [_pick_tempapp_edit(win)], given the Edit controls of the window;
    [None] stands for the [RuntimeError]. *)
Definition _pick_tempapp_edit (edits : list Element) : option Element :=
  match edits with
  | [] => None
  | e :: rest => Some (min_by_key edit_distance e rest)
  end.

(** What a regular expression accepts. *)
Inductive accepts : regex -> Text -> Prop :=
| acc_eps : accepts ReEps []
| acc_char a : accepts (ReChar a) [a]
| acc_digit a : is_digit a = true -> accepts ReDigit [a]
| acc_cat r s u v : accepts r u -> accepts s v -> accepts (ReCat r s) (u ++ v)
| acc_alt_l r s u : accepts r u -> accepts (ReAlt r s) u
| acc_alt_r r s u : accepts s u -> accepts (ReAlt r s) u
| acc_star_nil r : accepts (ReStar r) []
| acc_star_app r u v :
    accepts r u -> accepts (ReStar r) v -> accepts (ReStar r) (u ++ v).

(** The shape of a reading: an optional minus sign, one digit or more, a
    point, and one to four digits. *)
Definition reading_shape (s : Text) : Prop :=
  exists sign ip fp,
    s = sign ++ ip ++ "."%char :: fp /\
    (sign = [] \/ sign = ["-"%char]) /\
    ip <> [] /\ forallb is_digit ip = true /\
    forallb is_digit fp = true /\ 1 <= length fp <= 4.

(** ** Sample UI data *)

Definition text (s : string) : Text := list_ascii_of_string s.

(** The descendants of a read-out window: a caption, two numeric fields in
    one row, a control without text and a value with too many decimals. *)
Definition readout_window : list Element :=
  [mkElement (Some (text "Kinetics")) 0 0;
   mkElement (Some (text " 0.5321 ")) 40 300;
   mkElement (Some (text "0.71")) 40 120;
   mkElement None 10 10;
   mkElement (Some (text "12.34567")) 5 5].

(** Edit controls at distances 412, 22, 20 and 20 from the reference
    point. *)
Definition edit_controls : list Element :=
  [mkElement None 700 1000; mkElement None 810 1300;
   mkElement None 790 1322; mkElement None 810 1302].

(** Three passes of a polling sub-loop; the second finds no number. *)
Definition sample_passes : list (float * Element) :=
  [(1, mkElement (Some (text "0.5")) 40 120);
   (2, mkElement (Some (text "n/a")) 40 120);
   (3, mkElement (Some (text "-0.25 ")) 40 120)].

(** ** Facts about binary64 comparisons and subtraction *)

Section FloatFacts.

Lemma SFcompare_swap (x y : spec_float) :
  SFcompare y x = option_map CompOpp (SFcompare x y).
Proof.
  destruct x as [sx|sx| |sx mx ex], y as [sy|sy| |sy my ey]; simpl;
    try destruct sx; try destruct sy; try reflexivity;
    rewrite (Z.compare_antisym ex ey);
    destruct (ex ?= ey)%Z; simpl; try reflexivity;
    change (Pos.compare_cont Eq my mx) with (Pos.compare_cont (CompOpp Eq) my mx);
    rewrite <- Pos.compare_cont_antisym; reflexivity.
Qed.

Lemma ltb_leb (x y : float) : (x <? y) = true -> (x <=? y) = true.
Proof.
  rewrite ltb_spec, leb_spec. unfold SFltb, SFleb.
  destruct (SFcompare (Prim2SF x) (Prim2SF y)) as [[]|]; congruence.
Qed.

Lemma ltb_not_geb (x y : float) : (x <? y) = true -> (y <=? x) = false.
Proof.
  rewrite ltb_spec, leb_spec. unfold SFltb, SFleb.
  rewrite (SFcompare_swap (Prim2SF x) (Prim2SF y)).
  destruct (SFcompare (Prim2SF x) (Prim2SF y)) as [[]|]; simpl; congruence.
Qed.

Lemma not_ltb_geb (x y : float) :
  is_nan x = false -> is_nan y = false -> (x <? y) = false -> (y <=? x) = true.
Proof.
  unfold is_nan. rewrite !eqb_spec, ltb_spec, leb_spec. unfold SFeqb, SFltb, SFleb.
  rewrite (SFcompare_swap (Prim2SF x) (Prim2SF y)).
  destruct (Prim2SF x) as [[]|[]| |[]], (Prim2SF y) as [[]|[]| |[]];
    simpl; try congruence; intros _ _;
    match goal with |- context [Z.compare ?a ?b] => destruct (Z.compare a b) end;
    simpl; try congruence;
    match goal with
    | |- context [Pos.compare_cont Eq ?a ?b] => destruct (Pos.compare_cont Eq a b)
    end; simpl; congruence.
Qed.

(** Subtracting a positive zero changes no float, whatever its class. *)
Lemma sub_zero_r (x : float) : x - 0 = x.
Proof.
  apply Prim2SF_inj. rewrite sub_spec.
  change (Prim2SF 0) with (S754_zero false).
  unfold SF64sub, SFsub.
  destruct (Prim2SF x) as [[]|[]| |]; reflexivity.
Qed.

(** [max(lo, min(hi, x))] lands in [[lo, hi]] for every [x], NaN included. *)
Lemma clamp_within (lo hi x : float) :
  (lo <? hi) = true -> (lo <=? lo) = true -> (hi <=? hi) = true ->
  within lo hi (Py.max lo (Py.min hi x)) = true.
Proof.
  intros Hlt Hlo Hhi. unfold within, Py.max, Py.min.
  destruct (x <? hi) eqn:Exh.
  - destruct (lo <? x) eqn:Elx.
    + now rewrite (ltb_leb _ _ Elx), (ltb_leb _ _ Exh).
    + now rewrite Hlo, (ltb_leb _ _ Hlt).
  - rewrite Hlt. now rewrite (ltb_leb _ _ Hlt), Hhi.
Qed.

(** After [max(lo, min(hi, x))], being at or above [hi] is being [hi]. *)
Lemma clamp_at_top (lo hi x : float) :
  (lo <? hi) = true -> (hi <=? hi) = true ->
  (hi <=? Py.max lo (Py.min hi x)) = true <-> Py.max lo (Py.min hi x) = hi.
Proof.
  intros Hlt Hhi. unfold Py.max, Py.min.
  destruct (x <? hi) eqn:Exh.
  - destruct (lo <? x) eqn:Elx.
    + rewrite (ltb_not_geb _ _ Exh). split; [discriminate|].
      intros ->. apply ltb_not_geb in Exh. congruence.
    + rewrite (ltb_not_geb _ _ Hlt). split; [discriminate|].
      intros ->. apply ltb_not_geb in Hlt. congruence.
  - rewrite Hlt. split; auto.
Qed.

(** [max(min(x, hi), lo)] lands in [[lo, hi]] unless [x] is NaN. *)
Lemma clamp_within_nan (lo hi x : float) :
  (lo <? hi) = true -> (lo <=? lo) = true -> (hi <=? hi) = true ->
  is_nan lo = false -> is_nan hi = false -> is_nan x = false ->
  within lo hi (Py.max (Py.min x hi) lo) = true.
Proof.
  intros Hlt Hlo Hhi Nlo Nhi Nx. unfold within, Py.max, Py.min.
  destruct (hi <? x) eqn:Ehx.
  - destruct (hi <? lo) eqn:Ehl.
    + apply ltb_not_geb in Ehl. apply ltb_leb in Hlt. congruence.
    + now rewrite (ltb_leb _ _ Hlt), Hhi.
  - destruct (x <? lo) eqn:Exl.
    + now rewrite Hlo, (ltb_leb _ _ Hlt).
    + now rewrite (not_ltb_geb _ _ Nx Nlo Exl), (not_ltb_geb _ _ Nhi Nx Ehx).
Qed.

(** Two floats that compare equal are the same float, unless they are zeros. *)
Lemma SFcompare_Eq (x y : spec_float) :
  SFcompare x y = Some Eq ->
  x = y \/ exists sx sy, x = S754_zero sx /\ y = S754_zero sy.
Proof.
  destruct x as [sx|sx| |sx mx ex], y as [sy|sy| |sy my ey]; simpl;
    try destruct sx; try destruct sy; try discriminate; auto;
    try (right; eexists _, _; split; reflexivity);
    destruct (ex ?= ey)%Z eqn:Ee; try discriminate;
    intros H; injection H as H;
    try (apply (f_equal CompOpp) in H; rewrite CompOpp_involutive in H; simpl in H);
    apply Z.compare_eq in Ee; apply Pos.compare_eq in H; subst; auto.
Qed.

Lemma leb_not_ltb_eq (x y : float) :
  (x <=? y) = true -> (x <? y) = false -> (y =? 0) = false -> x = y.
Proof.
  rewrite leb_spec, ltb_spec, eqb_spec. unfold SFleb, SFltb, SFeqb.
  destruct (SFcompare (Prim2SF x) (Prim2SF y)) as [[]|] eqn:E; try discriminate.
  intros _ _ Hz. apply SFcompare_Eq in E. destruct E as [E|(sx & sy & _ & E)].
  - now apply Prim2SF_inj.
  - rewrite E in Hz. change (Prim2SF 0) with (S754_zero false) in Hz. discriminate.
Qed.

Lemma geb_not_gtb_eq (x y : float) :
  (x <=? y) = true -> (x <? y) = false -> (x =? 0) = false -> y = x.
Proof.
  rewrite leb_spec, ltb_spec, eqb_spec. unfold SFleb, SFltb, SFeqb.
  destruct (SFcompare (Prim2SF x) (Prim2SF y)) as [[]|] eqn:E; try discriminate.
  intros _ _ Hz. apply SFcompare_Eq in E. destruct E as [E|(sx & sy & E & _)].
  - symmetry. now apply Prim2SF_inj.
  - rewrite E in Hz. change (Prim2SF 0) with (S754_zero false) in Hz. discriminate.
Qed.

(** Both clamps leave a value of the interval as it is. *)
Lemma clamp_fixes (lo hi x : float) :
  (lo =? 0) = false -> (hi =? 0) = false ->
  within lo hi x = true -> Py.max lo (Py.min hi x) = x.
Proof.
  unfold within, Py.max, Py.min. intros Zlo Zhi H.
  apply Bool.andb_true_iff in H. destruct H as [Hl Hh].
  destruct (x <? hi) eqn:Exh.
  - destruct (lo <? x) eqn:Elx; [reflexivity|].
    symmetry. now apply geb_not_gtb_eq.
  - rewrite (leb_not_ltb_eq _ _ Hh Exh Zhi) in *.
    destruct (lo <? hi) eqn:Elh; [reflexivity|].
    symmetry. now apply geb_not_gtb_eq.
Qed.

Lemma clamp_fixes_nan (lo hi x : float) :
  within lo hi x = true -> Py.max (Py.min x hi) lo = x.
Proof.
  unfold within, Py.max, Py.min. intros H.
  apply Bool.andb_true_iff in H. destruct H as [Hl Hh].
  destruct (hi <? x) eqn:Ehx.
  - apply ltb_not_geb in Ehx. congruence.
  - destruct (x <? lo) eqn:Exl; [|reflexivity].
    apply ltb_not_geb in Exl. congruence.
Qed.

(** A NaN compares below nothing and above nothing. *)
Lemma is_nan_SF (x : float) : is_nan x = true -> Prim2SF x = S754_nan.
Proof.
  unfold is_nan. rewrite eqb_spec. unfold SFeqb.
  destruct (Prim2SF x) as [[]|[]| |[] m e]; simpl; try discriminate; try reflexivity;
    rewrite Z.compare_refl; change (Pos.compare_cont Eq) with Pos.compare;
    rewrite Pos.compare_refl; discriminate.
Qed.

Lemma ltb_nan_l (x y : float) : is_nan x = true -> (x <? y) = false.
Proof.
  intros H. rewrite ltb_spec, (is_nan_SF x H). reflexivity.
Qed.

Lemma ltb_nan_r (x y : float) : is_nan y = true -> (x <? y) = false.
Proof.
  intros H. rewrite ltb_spec, (is_nan_SF y H). unfold SFltb.
  destruct (Prim2SF x) as [[]|[]| |[]]; reflexivity.
Qed.

(** [max(min(x, hi), lo)] returns a NaN as it is. *)
Lemma clamp_passes_nan (lo hi x : float) :
  is_nan x = true -> Py.max (Py.min x hi) lo = x.
Proof.
  intros H. unfold Py.max, Py.min.
  now rewrite (ltb_nan_r hi x H), (ltb_nan_l x lo H).
Qed.

End FloatFacts.

(** ** Single iterations and runs *)

Section Runs.

Lemma const_cool_test : (START_TEMP <=? START_TEMP) = true.
Proof. reflexivity. Qed.

(** One pass through the state logic stays in the phase or moves to the
    next one. *)
Lemma state_logic_next c history p s_meas :
  state (fst (state_logic c history p s_meas)) = state c \/
  state (fst (state_logic c history p s_meas)) = next_state (state c).
Proof.
  unfold state_logic. destruct (state c) eqn:Es; cbn zeta.
  - destruct (S_REF <=? s_meas); simpl; auto.
  - match goal with |- context [if Nat.leb ?a ?b then _ else _] =>
      destruct (Nat.leb a b) end; simpl; auto.
  - match goal with |- context [if ?b then (mkCtx STATE_COOL _ _ _ _, _) else _] =>
      destruct b end; simpl; auto.
  - rewrite const_cool_test. simpl. auto.
  - simpl. auto.
Qed.

(** Every line of a log is one pass of the state logic, from the locals
    the previous line left, and those are reachable and not DONE. *)
Lemma loop_from_step c history periods i l :
  reachable c -> state c <> STATE_DONE ->
  nth_error (control_loop_from c history periods) i = Some l ->
  exists c0 h p,
    nth_error (c :: map log_ctx (control_loop_from c history periods)) i = Some c0 /\
    reachable c0 /\ state c0 <> STATE_DONE /\
    state_logic c0 h p (log_slope l) = (log_ctx l, log_notes l).
Proof.
  revert c history i. induction periods as [|p ps IH]; intros c history i Hr Hd Hn.
  - destruct i; discriminate.
  - simpl in Hn |- *.
    destruct (state_logic c (record_period history p)
                p (measured_slope (record_period history p) p)) as [c' notes] eqn:E.
    destruct i as [|i].
    + simpl in Hn. injection Hn as <-. simpl.
      exists c, (record_period history p), p. repeat split; auto.
    + simpl in Hn.
      assert (Hr' : reachable c').
      { replace c' with (fst (state_logic c (record_period history p) p
                                (measured_slope (record_period history p) p)))
          by now rewrite E.
        now constructor. }
      destruct (state c') eqn:Es;
        try (destruct i; discriminate);
        (destruct (IH c' (record_period history p) i Hr') as (c0 & h & p0 & H1 & H2 & H3 & H4);
         [congruence | exact Hn |];
         exists c0, h, p0; repeat split; auto).
Qed.

Lemma loop_step periods i l :
  nth_error (control_loop periods) i = Some l ->
  exists c0 h p,
    ctx_before (control_loop periods) i = Some c0 /\
    reachable c0 /\ state c0 <> STATE_DONE /\
    state_logic c0 h p (log_slope l) = (log_ctx l, log_notes l).
Proof.
  apply loop_from_step; [constructor | discriminate].
Qed.

End Runs.

(** ** Temperature bounds *)

(** C1, evaluated where it fails.  The LINEAR branch adds [FAST_RAMP * 0.5]
    to the temperature target on every iteration and, unlike the PID branch,
    never limits it: after 56 iterations in which the measured slope stays
    below [S_REF] (no reading at all, or a steady absorbance) the target is
    101, above [MAX_TEMP], and the phase is still LINEAR. *)
Theorem linear_ramp_exceeds_max_temp :
  tail_targets 54 (control_loop (repeat quiet_period 56))
    = [(STATE_LINEAR, 100); (STATE_LINEAR, 101)] /\
  tail_targets 54 (control_loop (map steady_period (seq 0 56)))
    = [(STATE_LINEAR, 100); (STATE_LINEAR, 101)] /\
  within START_TEMP MAX_TEMP 101 = false /\
  (MAX_TEMP <? 101) = true.
Proof. vm_compute. repeat split. Qed.

(** ** Phase order *)

Section PhaseOrder.

Lemma nth_error_phases (log : list LogLine) i a :
  nth_error (STATE_LINEAR :: map (fun l => state (log_ctx l)) log) i = Some a ->
  exists c, ctx_before log i = Some c /\ state c = a.
Proof.
  unfold ctx_before. intros H.
  replace (STATE_LINEAR :: map (fun l => state (log_ctx l)) log)
    with (map state (initial :: map log_ctx log)) in H
    by (simpl; now rewrite map_map).
  rewrite nth_error_map in H.
  destruct (nth_error (initial :: map log_ctx log) i) as [c|]; [|discriminate].
  exists c. split; [reflexivity|]. now injection H.
Qed.

(** C2.  In the sequence of phases of any run, started in LINEAR, every
    phase is followed by itself or by the next phase of the order LINEAR,
    NONLINEAR, HOLD, COOL, DONE, and DONE is followed by nothing: the loop
    performs no iteration after the one that reaches DONE. *)
Theorem phase_order_forward : forall periods i a b,
  let phases := STATE_LINEAR :: map (fun l => state (log_ctx l)) (control_loop periods) in
  nth_error phases i = Some a ->
  nth_error phases (S i) = Some b ->
  a <> STATE_DONE /\ (b = a \/ (b = next_state a /\ b <> a)).
Proof.
  intros periods i a b phases Ha Hb. subst phases.
  simpl in Hb. rewrite nth_error_map in Hb.
  destruct (nth_error (control_loop periods) i) as [l|] eqn:El; [|discriminate].
  injection Hb as <-.
  destruct (loop_step _ _ _ El) as (c0 & h & p & Hc & _ & Hd & Hs).
  destruct (nth_error_phases _ _ _ Ha) as (c & Hc' & <-).
  rewrite Hc in Hc'. injection Hc' as <-.
  split; [exact Hd|].
  pose proof (state_logic_next c0 h p (log_slope l)) as Hn.
  rewrite Hs in Hn. simpl in Hn.
  destruct Hn as [Hn|Hn]; [now left|].
  right. split; [exact Hn|]. rewrite Hn.
  destruct (state c0); simpl; congruence.
Qed.

End PhaseOrder.

(** ** The PID-controlled phase *)

Section Nonlinear.

Variables (c : Ctx) (history : list Reading) (p : Period) (s : float).
Hypothesis Hstate : state c = STATE_NONLINEAR.

Let c' := fst (state_logic c history p s).
Let notes := snd (state_logic c history p s).
Let q := plateau_test (temp c) (pid_locals c) s.

Lemma nonlinear_unfold :
  state_logic c history p s =
  if Nat.leb PLATEAU_TICKS (if q then S (plateau_counter c) else O) then
    (mkCtx STATE_HOLD MAX_TEMP 0 (if q then S (plateau_counter c) else O)
       (Some (mkPid (pid_integral (pid_locals c) s) (pid_error s))),
     "Reached limit → HOLD"%string)
  else
    (mkCtx STATE_NONLINEAR (pid_temp (temp c) (pid_locals c) s)
       (pid_ramp (pid_locals c) s) (if q then S (plateau_counter c) else O)
       (Some (mkPid (pid_integral (pid_locals c) s) (pid_error s))),
     EmptyString).
Proof. unfold state_logic. rewrite Hstate. reflexivity. Qed.

Lemma nonlinear_pid :
  pid c' = Some (mkPid (pid_integral (pid_locals c) s) (pid_error s)).
Proof.
  subst c'. rewrite nonlinear_unfold.
  destruct (Nat.leb _ _); reflexivity.
Qed.

Lemma nonlinear_counter :
  plateau_counter c' = if q then S (plateau_counter c) else O.
Proof.
  subst c'. rewrite nonlinear_unfold.
  destruct (Nat.leb _ _); reflexivity.
Qed.

Lemma nonlinear_hold :
  PLATEAU_TICKS <= plateau_counter c' ->
  state c' = STATE_HOLD /\ ramp c' = 0 /\ temp c' = MAX_TEMP /\ notes <> EmptyString.
Proof.
  rewrite nonlinear_counter. subst c' notes. rewrite nonlinear_unfold.
  intros H. apply Nat.leb_le in H. rewrite H. simpl. repeat split. discriminate.
Qed.

Lemma nonlinear_stay :
  plateau_counter c' < PLATEAU_TICKS ->
  state c' = STATE_NONLINEAR /\ ramp c' = pid_ramp (pid_locals c) s /\
  temp c' = pid_temp (temp c) (pid_locals c) s /\ notes = EmptyString.
Proof.
  rewrite nonlinear_counter. subst c' notes. rewrite nonlinear_unfold.
  intros H. apply Nat.leb_gt in H. rewrite H. simpl. repeat split.
Qed.

End Nonlinear.

Section PidBounds.

Variables (T : float) (v : PidVars) (s : float).

Lemma pid_ramp_within : within (-10) MAX_RAMP (pid_ramp v s) = true.
Proof. apply clamp_within; reflexivity. Qed.

Lemma pid_temp_within : within START_TEMP MAX_TEMP (pid_temp T v s) = true.
Proof. apply clamp_within; reflexivity. Qed.

Lemma pid_integral_within :
  is_nan (integral v + pid_error s * dt_min) = false ->
  within (-0.01) 0.01 (pid_integral v s) = true.
Proof. intros H. apply clamp_within_nan; auto. Qed.

Lemma pid_temp_at_max :
  (MAX_TEMP <=? pid_temp T v s) = true <-> pid_temp T v s = MAX_TEMP.
Proof. apply clamp_at_top; reflexivity. Qed.

Lemma pid_ramp_at_max :
  (MAX_RAMP <=? pid_ramp v s) = true <-> pid_ramp v s = MAX_RAMP.
Proof. apply clamp_at_top; reflexivity. Qed.

(** The program's plateau test says what the design says: the target is at
    [MAX_TEMP] with a positive ramp, or the ramp is at [MAX_RAMP] with a
    positive error. *)
Lemma plateau_test_iff :
  plateau_test T v s = true <->
  (pid_temp T v s = MAX_TEMP /\ (0 <? pid_ramp v s) = true) \/
  (pid_ramp v s = MAX_RAMP /\ (0 <? pid_error s) = true).
Proof.
  unfold plateau_test.
  rewrite Bool.orb_true_iff, !Bool.andb_true_iff, pid_temp_at_max, pid_ramp_at_max.
  reflexivity.
Qed.

End PidBounds.

(** The PID locals, field by field. *)
Lemma pid_locals_fields c :
  pid_locals c =
  mkPid (match pid c with Some v => integral v | None => 0 end)
        (match pid c with Some v => prev_error v | None => 0 end).
Proof. unfold pid_locals. now destruct (pid c) as [[]|]. Qed.

(** C3.  An iteration in the PID phase works on the integral and the
    previous error that the iteration before it stored (zeros on the first
    pass) and on the measured slope [s].  It computes the error
    [S_REF - s]; the integral, advanced by [error * dt] and then clamped
    to [[-0.01, 0.01]] whenever the advanced integral is a number, while a
    NaN goes through [max(min(., 0.01), -0.01)] as it is; the derivative
    [(error - prev_error) / dt]; the ramp
    [Kp*error + Ki*integral + Kd*derivative] clamped to [[-10, MAX_RAMP]];
    the temperature target advanced by [ramp * dt] and clamped to
    [[START_TEMP, MAX_TEMP]].  It stores the integral and the error, feeds
    the plateau test with the computed values, and leaves them in [ramp]
    and [temp] unless this very iteration enters HOLD.  Each clamp leaves
    a value of its interval unchanged.  The next PID iteration advances
    the stored integral and takes its derivative from the stored error. *)
Theorem pid_update_each_tick : forall c history p s,
  state c = STATE_NONLINEAR ->
  let integral0 := match pid c with Some v => integral v | None => 0 end in
  let prev_error0 := match pid c with Some v => prev_error v | None => 0 end in
  let e := S_REF - s in
  let i0 := integral0 + e * dt_min in
  let i := Py.max (Py.min i0 0.01) (-0.01) in
  let d := (e - prev_error0) / dt_min in
  let r0 := Kp_pid * e + Ki_pid * i + Kd_pid * d in
  let r := Py.max (-10) (Py.min MAX_RAMP r0) in
  let t0 := temp c + r * dt_min in
  let t := Py.max START_TEMP (Py.min MAX_TEMP t0) in
  let c' := fst (state_logic c history p s) in
  pid c' = Some (mkPid i e) /\
  (is_nan i0 = false -> within (-0.01) 0.01 i = true) /\
  (is_nan i0 = true -> i = i0) /\
  (within (-0.01) 0.01 i0 = true -> i = i0) /\
  within (-10) MAX_RAMP r = true /\
  (within (-10) MAX_RAMP r0 = true -> r = r0) /\
  within START_TEMP MAX_TEMP t = true /\
  (within START_TEMP MAX_TEMP t0 = true -> t = t0) /\
  plateau_counter c' =
    (if (MAX_TEMP <=? t) && (0 <? r) || (MAX_RAMP <=? r) && (0 <? e)
     then S (plateau_counter c) else O) /\
  ((state c' = STATE_NONLINEAR /\ ramp c' = r /\ temp c' = t) \/
   (state c' = STATE_HOLD /\ PLATEAU_TICKS <= plateau_counter c')) /\
  (forall history' p' s',
     state c' = STATE_NONLINEAR ->
     let c'' := fst (state_logic c' history' p' s') in
     let e' := S_REF - s' in
     let i' := Py.max (Py.min (i + e' * dt_min) 0.01) (-0.01) in
     pid c'' = Some (mkPid i' e') /\
     (state c'' = STATE_NONLINEAR ->
      ramp c'' =
        Py.max (-10)
          (Py.min MAX_RAMP
             (Kp_pid * e' + Ki_pid * i' + Kd_pid * ((e' - e) / dt_min))))).
Proof.
  intros c history p s Hs integral0 prev_error0 e i0 i d r0 r t0 t c'.
  pose proof (pid_locals_fields c) as Hv. fold integral0 prev_error0 in Hv.
  pose proof (nonlinear_pid c history p s Hs) as Hpid.
  pose proof (nonlinear_counter c history p s Hs) as Hcnt.
  fold c' in Hpid, Hcnt. rewrite Hv in Hpid, Hcnt.
  split; [exact Hpid|].
  split; [exact (pid_integral_within (mkPid integral0 prev_error0) s)|].
  split; [exact (clamp_passes_nan _ _ _)|].
  split; [exact (clamp_fixes_nan _ _ _)|].
  split; [exact (pid_ramp_within (mkPid integral0 prev_error0) s)|].
  split; [apply clamp_fixes; reflexivity|].
  split; [exact (pid_temp_within (temp c) (mkPid integral0 prev_error0) s)|].
  split; [apply clamp_fixes; reflexivity|].
  split; [exact Hcnt|].
  split.
  - destruct (Nat.lt_ge_cases (plateau_counter c') PLATEAU_TICKS) as [H|H].
    + left. destruct (nonlinear_stay c history p s Hs H) as (H1 & H2 & H3 & _).
      fold c' in H1, H2, H3. rewrite Hv in H2, H3. auto.
    + right. destruct (nonlinear_hold c history p s Hs H) as (H1 & _). auto.
  - intros history' p' s' Hs' c'' e' i'.
    assert (Hv' : pid_locals c' = mkPid i e) by (unfold pid_locals; now rewrite Hpid).
    pose proof (nonlinear_pid c' history' p' s' Hs') as Hpid'.
    fold c'' in Hpid'. rewrite Hv' in Hpid'.
    split; [exact Hpid'|].
    intros Hs''.
    destruct (Nat.lt_ge_cases (plateau_counter c'') PLATEAU_TICKS) as [H|H].
    + destruct (nonlinear_stay c' history' p' s' Hs' H) as (_ & H2 & _).
      fold c'' in H2. rewrite Hv' in H2. exact H2.
    + destruct (nonlinear_hold c' history' p' s' Hs' H) as (H1 & _).
      fold c'' in H1. congruence.
Qed.

(** Two PID iterations of a controller that has run before, with slopes
    0.001 and 0.002: no clamp is active, the integral grows from the
    stored 0.004 by both errors, and the derivative of the first is taken
    from the stored error 0.002. *)
Lemma pid_update_each_tick_witness :
  let c' := fst (state_logic regulating [] quiet_period 0.001) in
  let c'' := fst (state_logic c' [] quiet_period 0.002) in
  pid c' = Some (mkPid (0.004 + (S_REF - 0.001) * 0.5) (S_REF - 0.001)) /\
  state c' = STATE_NONLINEAR /\
  ramp c' =
    80 * (S_REF - 0.001) + 10 * (0.004 + (S_REF - 0.001) * 0.5)
    + 5 * ((S_REF - 0.001 - 0.002) / 0.5) /\
  temp c' = 60 + ramp c' * 0.5 /\
  pid c'' =
    Some (mkPid (0.004 + (S_REF - 0.001) * 0.5 + (S_REF - 0.002) * 0.5)
                (S_REF - 0.002)).
Proof.
  intros c' c''.
  pose proof (pid_update_each_tick regulating [] quiet_period 0.001 eq_refl) as H.
  cbv zeta in H. fold c' in H.
  destruct H as (Hp & _ & _ & Hi & _ & Hr & _ & Ht & _ & Hst & Hnext).
  assert (Hi' := Hi eq_refl).
  destruct Hst as [(Hs & Hramp & Htemp)|(Hh & _)]; [|vm_compute in Hh; discriminate].
  destruct (Hnext [] quiet_period 0.002 Hs) as (Hp'' & _). fold c'' in Hp''.
  split; [rewrite Hp, Hi'; reflexivity|].
  split; [exact Hs|].
  split; [rewrite Hramp, Hr; [rewrite Hi'; reflexivity | vm_compute; reflexivity]|].
  split; [rewrite Htemp, Ht; [rewrite Hramp; reflexivity | vm_compute; reflexivity]|].
  rewrite Hp'', Hi'. rewrite clamp_fixes_nan; [reflexivity | vm_compute; reflexivity].
Defined.

(** C3 as stated fails where the measured slope is NaN.  On [glitch] the
    first iteration enters the PID phase; the window of the second holds
    infinite readings, its slope is NaN, and the integral that this PID
    iteration stores is NaN, outside [[-0.01, 0.01]]. *)
Lemma pid_update_each_tick_counterexample :
  exists l0 l1 v,
    control_loop glitch = [l0; l1] /\
    state (log_ctx l0) = STATE_NONLINEAR /\
    is_nan (log_slope l1) = true /\
    pid (log_ctx l1) = Some v /\
    within (-0.01) 0.01 (integral v) = false.
Proof.
  eexists _, _, _. vm_compute. repeat split.
Qed.

(** ** Invariants of the reachable locals *)

Section Invariants.

Lemma linear_unfold c history p s :
  state c = STATE_LINEAR ->
  state_logic c history p s =
  if S_REF <=? s then
    (mkCtx STATE_NONLINEAR (temp c + FAST_RAMP * dt_min) 0 (plateau_counter c) (pid c),
     "→ proportional control"%string)
  else
    (mkCtx STATE_LINEAR (temp c + FAST_RAMP * dt_min) FAST_RAMP (plateau_counter c) (pid c),
     EmptyString).
Proof.
  intros H. unfold state_logic. rewrite H. cbv zeta.
  change (2 * 0 * (CHECK_PERIOD_S / 60.0)) with 0%float.
  rewrite sub_zero_r. reflexivity.
Qed.

Lemma reachable_counters_ok c : reachable c -> counters_ok c.
Proof.
  induction 1 as [|c history p s Hr [IHl IHn] Hd].
  - split; intros H; [split; reflexivity | discriminate].
  - destruct (state c) eqn:Es; try congruence.
    + rewrite (linear_unfold _ _ _ _ Es).
      destruct (IHl eq_refl) as [Hc Hp].
      destruct (S_REF <=? s); simpl; rewrite Hc, Hp; split; simpl; intros H;
        try discriminate H; repeat split; auto; unfold PLATEAU_TICKS; lia.
    + pose proof (nonlinear_counter c history p s Es) as Hc.
      pose proof (nonlinear_pid c history p s Es) as Hp.
      split; intros H.
      * pose proof (state_logic_next c history p s) as Hn. rewrite Es in Hn.
        simpl in Hn. destruct Hn; congruence.
      * split; [|rewrite Hp; discriminate].
        destruct (Nat.lt_ge_cases
                    (plateau_counter (fst (state_logic c history p s))) PLATEAU_TICKS)
          as [Hlt|Hge]; [exact Hlt|].
        destruct (nonlinear_hold c history p s Es Hge) as (Hh & _). congruence.
    + pose proof (state_logic_next c history p s) as Hn. rewrite Es in Hn.
      simpl in Hn. split; intros H; destruct Hn; congruence.
    + pose proof (state_logic_next c history p s) as Hn. rewrite Es in Hn.
      simpl in Hn. split; intros H; destruct Hn; congruence.
Qed.

(** The locals before iteration [j+1] are those the [j]-th log line shows. *)
Lemma ctx_before_S log j c :
  ctx_before log (S j) = Some c ->
  exists l, nth_error log j = Some l /\ log_ctx l = c.
Proof.
  unfold ctx_before. simpl. rewrite nth_error_map.
  destruct (nth_error log j) as [l|]; [|discriminate].
  intros H. injection H as <-. now exists l.
Qed.

Lemma ctx_before_next log j l :
  nth_error log j = Some l -> ctx_before log (S j) = Some (log_ctx l).
Proof.
  unfold ctx_before. simpl. rewrite nth_error_map. now intros ->.
Qed.

End Invariants.

(** ** Plateau detection *)

Section Plateau.

Variable periods : list Period.
Let log := control_loop periods.

(** A PID-phase counter of [k+1] was produced by a qualifying iteration
    that started from a counter of [k]. *)
Lemma counter_back i c k :
  ctx_before log i = Some c -> state c = STATE_NONLINEAR ->
  plateau_counter c = S k ->
  exists j cj, i = S j /\ qualifying log j /\
    ctx_before log j = Some cj /\ state cj = STATE_NONLINEAR /\ plateau_counter cj = k.
Proof.
  intros Hc Hs Hk. destruct i as [|j].
  - unfold ctx_before in Hc. simpl in Hc. injection Hc as <-. discriminate.
  - destruct (ctx_before_S _ _ _ Hc) as (lj & Hlj & <-).
    destruct (loop_step _ _ _ Hlj) as (cj & h & p & Hcj & Hr & Hd & Hst).
    fold log in Hcj.
    assert (Hfst : log_ctx lj = fst (state_logic cj h p (log_slope lj)))
      by now rewrite Hst.
    destruct (state cj) eqn:Es; try congruence.
    + destruct (proj1 (reachable_counters_ok _ Hr) Es) as [H0 _].
      rewrite (linear_unfold _ _ _ _ Es) in Hfst.
      destruct (S_REF <=? log_slope lj); rewrite Hfst in Hk; simpl in Hk; congruence.
    + pose proof (nonlinear_counter cj h p (log_slope lj) Es) as Hn.
      rewrite <- Hfst, Hk in Hn.
      destruct (plateau_test (temp cj) (pid_locals cj) (log_slope lj)) eqn:Eq;
        [|discriminate].
      exists j, cj. repeat split; auto; [|congruence].
      exists cj, lj. repeat split; auto. now apply plateau_test_iff.
    + pose proof (state_logic_next cj h p (log_slope lj)) as Hn.
      rewrite <- Hfst, Es in Hn. simpl in Hn. destruct Hn; congruence.
    + pose proof (state_logic_next cj h p (log_slope lj)) as Hn.
      rewrite <- Hfst, Es in Hn. simpl in Hn. destruct Hn; congruence.
Qed.

(** After a qualifying iteration the counter is one more than before. *)
Lemma counter_forward j c :
  qualifying log j -> ctx_before log (S j) = Some c ->
  exists cj, ctx_before log j = Some cj /\ plateau_counter c = S (plateau_counter cj).
Proof.
  intros (cj & lj & Hcj & Hlj & Hs & Hq) Hc.
  rewrite (ctx_before_next _ _ _ Hlj) in Hc. injection Hc as <-.
  destruct (loop_step _ _ _ Hlj) as (c0 & h & p & Hc0 & _ & _ & Hst).
  fold log in Hc0. rewrite Hcj in Hc0. injection Hc0 as <-.
  exists cj. split; [exact Hcj|].
  pose proof (nonlinear_counter cj h p (log_slope lj) Hs) as Hn.
  rewrite Hst in Hn. simpl in Hn.
  now rewrite (proj2 (plateau_test_iff _ _ _) Hq) in Hn.
Qed.

End Plateau.

(** C4.  For an iteration [i] performed in the PID phase: the plateau
    counter goes up by one when the plateau condition holds (target at
    [MAX_TEMP] with positive ramp, or ramp at [MAX_RAMP] with positive
    error) and back to zero when it does not; the iteration enters HOLD
    exactly when it is the third of three consecutive qualifying
    iterations, and then leaves ramp 0 and target [MAX_TEMP]. *)
Theorem plateau_detection : forall periods i l c,
  let log := control_loop periods in
  nth_error log i = Some l ->
  ctx_before log i = Some c ->
  state c = STATE_NONLINEAR ->
  let cond := plateau_condition (temp c) (pid_locals c) (log_slope l) in
  (cond -> plateau_counter (log_ctx l) = S (plateau_counter c)) /\
  (~ cond -> plateau_counter (log_ctx l) = 0%nat) /\
  (state (log_ctx l) = STATE_HOLD <->
     exists j, i = S (S j) /\ qualifying log j /\ qualifying log (S j) /\ qualifying log i) /\
  (state (log_ctx l) = STATE_HOLD ->
     ramp (log_ctx l) = 0 /\ temp (log_ctx l) = MAX_TEMP /\ log_notes l <> EmptyString) /\
  (state (log_ctx l) <> STATE_HOLD -> state (log_ctx l) = STATE_NONLINEAR).
Proof.
  intros periods i l c log Hl Hc Hs cond.
  destruct (loop_step _ _ _ Hl) as (c0 & h & p & Hc0 & Hr & _ & Hst).
  fold log in Hc0. rewrite Hc in Hc0. injection Hc0 as <-.
  pose proof (nonlinear_counter c h p (log_slope l) Hs) as Hn.
  pose proof (nonlinear_hold c h p (log_slope l) Hs) as Hh.
  pose proof (nonlinear_stay c h p (log_slope l) Hs) as Hy.
  rewrite Hst in Hn, Hh, Hy. simpl in Hn, Hh, Hy.
  pose proof (plateau_test_iff (temp c) (pid_locals c) (log_slope l)) as Hq.
  fold cond in Hq.
  destruct (proj2 (reachable_counters_ok _ Hr) Hs) as [Hlt _].
  assert (Hhold : state (log_ctx l) = STATE_HOLD <->
                  PLATEAU_TICKS <= plateau_counter (log_ctx l)).
  { split; intros H; [|now apply Hh].
    destruct (Nat.lt_ge_cases (plateau_counter (log_ctx l)) PLATEAU_TICKS) as [H'|H'];
      [|exact H']. destruct (Hy H') as (Hy' & _). congruence. }
  split; [|split; [|split; [|split]]].
  - intros H. apply Hq in H. now rewrite H in Hn.
  - intros H. destruct (plateau_test _ _ _); [|exact Hn]. exfalso. apply H, Hq. reflexivity.
  - rewrite Hhold. unfold PLATEAU_TICKS in *. split.
    + intros H.
      destruct (plateau_test (temp c) (pid_locals c) (log_slope l)) eqn:Et;
        [|rewrite Hn in H; lia].
      assert (Hk : plateau_counter c = 2%nat) by lia.
      destruct (counter_back periods i c 1 Hc Hs Hk) as (j1 & c1 & -> & Hq1 & Hc1 & Hs1 & Hk1).
      destruct (counter_back periods j1 c1 0 Hc1 Hs1 Hk1) as (j2 & c2 & -> & Hq2 & _).
      exists j2. repeat split; auto.
      exists c, l. repeat split; auto. now apply Hq.
    + intros (j & -> & Hq0 & Hq1 & (c2 & l2 & Hc2 & Hl2 & _ & Hcond)).
      fold log in Hc2, Hl2. rewrite Hc in Hc2. injection Hc2 as <-.
      rewrite Hl in Hl2. injection Hl2 as <-.
      destruct (counter_forward periods (S j) c Hq1 Hc) as (c1 & Hc1 & Hk1).
      destruct (counter_forward periods j c1 Hq0 Hc1) as (c0 & _ & Hk0).
      rewrite (proj2 Hq Hcond) in Hn. lia.
  - intros H. destruct (Hh (proj1 Hhold H)) as (_ & H1 & H2 & H3). auto.
  - intros H.
    destruct (Nat.lt_ge_cases (plateau_counter (log_ctx l)) PLATEAU_TICKS) as [H'|H'].
    + now destruct (Hy H').
    + exfalso. apply H, Hhold, H'.
Qed.

(** ** The HOLD phase *)

Section Hold.

Variables (c : Ctx) (history : list Reading) (p : Period) (s : float).
Hypothesis Hstate : state c = STATE_HOLD.

Let rng := range_over_window (t_range p) history STABILITY_WINDOW_MIN.
Let s10 := Py.or_zero (slope_over_window (t_slope10 p) history (STABILITY_WINDOW_MIN * 60)).

(** The stability gate, as the HOLD branch evaluates it. *)
Let gate : bool :=
  match rng with
  | Some r => (r <? STABILITY_MAX_RANGE_AU) && (abs s10 <? STABILITY_MAX_SLOPE)
  | None => false
  end.

Lemma hold_unfold :
  state_logic c history p s =
  if gate then
    (mkCtx STATE_COOL START_TEMP COOL_RAMP (plateau_counter c) (pid c), "Stable → COOL"%string)
  else
    (mkCtx STATE_HOLD MAX_TEMP 0 (plateau_counter c) (pid c), EmptyString).
Proof. unfold state_logic. rewrite Hstate. reflexivity. Qed.


End Hold.


(** C10.  When the ten-minute slope is undefined, the HOLD branch works with
    0.0 in its place, which passes the slope test; the iteration then enters
    COOL as soon as the range is defined and below 0.05. *)
Theorem hold_undefined_slope_passes : forall c history p s,
  state c = STATE_HOLD ->
  slope_over_window (t_slope10 p) history (STABILITY_WINDOW_MIN * 60) = None ->
  let rng := range_over_window (t_range p) history STABILITY_WINDOW_MIN in
  let c' := fst (state_logic c history p s) in
  Py.or_zero (slope_over_window (t_slope10 p) history (STABILITY_WINDOW_MIN * 60)) = 0 /\
  (abs 0 <? STABILITY_MAX_SLOPE) = true /\
  (state c' = STATE_COOL <-> exists r, rng = Some r /\ (r <? STABILITY_MAX_RANGE_AU) = true).
Proof.
  intros c history p s Hs Hnone rng c'.
  split; [now rewrite Hnone|]. split; [reflexivity|].
  subst c'. rewrite (hold_unfold c history p s Hs). rewrite Hnone. simpl Py.or_zero.
  fold rng. destruct rng as [r|]; simpl.
  - change (abs 0 <? STABILITY_MAX_SLOPE) with true. rewrite Bool.andb_true_r.
    destruct (r <? STABILITY_MAX_RANGE_AU) eqn:Er; simpl.
    + split; auto. intros _. now exists r.
    + split; [discriminate|]. intros (r' & Hr & H). injection Hr as ->. congruence.
  - split; [discriminate|]. intros (r & Hr & _). discriminate.
Qed.

(** ** The COOL phase *)

Section Cool.

Lemma cool_unfold c history p s :
  state c = STATE_COOL ->
  state_logic c history p s =
  (mkCtx STATE_DONE START_TEMP 0 (plateau_counter c) (pid c),
   "Reached 20 °C → done."%string).
Proof.
  intros H. unfold state_logic. rewrite H. cbv zeta.
  now rewrite const_cool_test.
Qed.

(** COOL is only ever entered from HOLD, with the cool rate and with the
    target already at [START_TEMP]. *)
Lemma reachable_cool c :
  reachable c -> state c = STATE_COOL -> ramp c = COOL_RAMP /\ temp c = START_TEMP.
Proof.
  induction 1 as [|c history p s Hr IH Hd]; [discriminate|].
  destruct (state c) eqn:Es; try congruence.
  - rewrite (linear_unfold _ _ _ _ Es). destruct (S_REF <=? s); discriminate.
  - rewrite (nonlinear_unfold _ history p s Es).
    destruct (Nat.leb _ _); discriminate.
  - rewrite (hold_unfold _ history p s Es).
    destruct (match range_over_window _ _ _ with Some _ => _ | None => _ end);
      simpl; [auto | discriminate].
  - rewrite (cool_unfold _ history p s Es). discriminate.
Qed.

End Cool.

(** C6, evaluated on the code.  The COOL branch assigns
    [temp = START_TEMP] before it tests [temp <= START_TEMP], so the test
    always succeeds and the cool rate it has just assigned to [ramp] is
    overwritten with zero before anything is sent.  Hence the target is
    never brought down tick by tick: the HOLD iteration that enters COOL
    has already set it to [START_TEMP] together with the cool rate, and
    the one COOL iteration that follows finds it there, sets it to
    [START_TEMP] again, zeroes the ramp, notes the end and reaches DONE,
    after which the loop stops, whatever the readings. *)
Theorem cool_reaches_start_temp : forall c history p ps,
  reachable c ->
  state c = STATE_COOL ->
  (ramp c = COOL_RAMP /\ temp c = START_TEMP) /\
  exists l,
    control_loop_from c history (p :: ps) = [l] /\
    state (log_ctx l) = STATE_DONE /\
    temp (log_ctx l) = START_TEMP /\
    ramp (log_ctx l) = 0 /\
    log_notes l <> EmptyString.
Proof.
  intros c history p ps Hr Hs. split; [now apply reachable_cool|].
  simpl. rewrite (cool_unfold _ _ _ _ Hs). simpl.
  eexists. split; [reflexivity|]. simpl. repeat split. discriminate.
Qed.

(** ** The LINEAR phase *)

Section Linear.

Variable periods : list Period.
Let log := control_loop periods.

(** The phase before an iteration is LINEAR exactly when every earlier
    iteration measured a slope below [S_REF]. *)
Lemma linear_until_reference i c :
  ctx_before log i = Some c ->
  (state c = STATE_LINEAR <-> below_reference log i).
Proof.
  revert c. induction i as [|i IH]; intros c Hc.
  - unfold ctx_before in Hc. simpl in Hc. injection Hc as <-.
    split; [|reflexivity]. intros _ j l Hj. lia.
  - destruct (ctx_before_S _ _ _ Hc) as (li & Hli & <-).
    destruct (loop_step _ _ _ Hli) as (ci & h & p & Hci & Hr & Hd & Hst).
    fold log in Hci. specialize (IH ci Hci).
    assert (Hfst : log_ctx li = fst (state_logic ci h p (log_slope li)))
      by now rewrite Hst.
    split.
    + intros Hs.
      assert (Hi : state ci = STATE_LINEAR).
      { pose proof (state_logic_next ci h p (log_slope li)) as Hn.
        rewrite <- Hfst, Hs in Hn.
        destruct (state ci); simpl in Hn; destruct Hn; congruence. }
      rewrite (linear_unfold _ _ _ _ Hi) in Hfst.
      destruct (S_REF <=? log_slope li) eqn:Eref;
        [rewrite Hfst in Hs; discriminate|].
      intros j l Hj Hl. destruct (Nat.eq_dec j i) as [->|Hne].
      * fold log in Hli. rewrite Hli in Hl. injection Hl as <-. exact Eref.
      * apply (proj1 IH Hi j l); [lia | exact Hl].
    + intros Hb.
      assert (Hi : state ci = STATE_LINEAR).
      { apply IH. intros j l Hj. apply Hb. lia. }
      rewrite (linear_unfold _ _ _ _ Hi) in Hfst.
      rewrite (Hb i li (Nat.lt_succ_diag_r i) Hli) in Hfst.
      now rewrite Hfst.
Qed.

End Linear.

(** C7.  An iteration performed in LINEAR adds [FAST_RAMP * dt] to the
    temperature target.  When the measured slope is below [S_REF] it stays
    in LINEAR with the ramp at [FAST_RAMP] and no note; when the slope is
    [S_REF] or more it enters the PID phase with ramp 0, the target as just
    incremented (no correction) and a note.  The phase before an iteration
    is LINEAR exactly when no earlier iteration measured [S_REF] or more, so
    the transition is made by the first iteration that does. *)
Theorem linear_phase_tick : forall periods i l c,
  let log := control_loop periods in
  nth_error log i = Some l ->
  ctx_before log i = Some c ->
  (state c = STATE_LINEAR <-> below_reference log i) /\
  (state c = STATE_LINEAR ->
     temp (log_ctx l) = temp c + FAST_RAMP * dt_min /\
     ((S_REF <=? log_slope l) = false ->
        state (log_ctx l) = STATE_LINEAR /\ ramp (log_ctx l) = FAST_RAMP /\
        log_notes l = EmptyString) /\
     ((S_REF <=? log_slope l) = true ->
        state (log_ctx l) = STATE_NONLINEAR /\ ramp (log_ctx l) = 0 /\
        log_notes l <> EmptyString)).
Proof.
  intros periods i l c log Hl Hc.
  split; [exact (linear_until_reference periods i c Hc)|].
  intros Hs.
  destruct (loop_step _ _ _ Hl) as (c0 & h & p & Hc0 & _ & _ & Hst).
  fold log in Hc0. rewrite Hc in Hc0. injection Hc0 as <-.
  rewrite (linear_unfold _ _ _ _ Hs) in Hst.
  destruct (S_REF <=? log_slope l); injection Hst as <- <-; simpl;
    repeat split; auto; try discriminate.
Qed.

(** ** The PID state: lazy binding against an explicit reset *)

Section Refinement.

Lemma tick_simulation c r history p s :
  same_controller c r ->
  same_controller (fst (state_logic c history p s))
                  (fst (tick_explicit_reset r history p s)) /\
  snd (state_logic c history p s) = snd (tick_explicit_reset r history p s).
Proof.
  intros (Hs & Ht & Hr & Hc & Hl & Hn).
  unfold tick_explicit_reset. rewrite <- Hs, <- Ht, <- Hc.
  destruct (state c) eqn:Es.
  - rewrite (linear_unfold _ _ _ _ Es).
    destruct (S_REF <=? s); simpl; unfold same_controller; simpl;
      repeat split; auto; try discriminate; try congruence.
    intros _. unfold pid_locals. simpl. now rewrite (Hl eq_refl).
  - rewrite (nonlinear_unfold _ history p s Es).
    rewrite <- (Hn ltac:(discriminate)).
    destruct (Nat.leb _ _); simpl; unfold same_controller; simpl;
      repeat split; auto; discriminate.
  - rewrite (hold_unfold _ history p s Es).
    destruct (range_over_window _ _ _) as [rg|]; simpl.
    + destruct (_ && _); simpl; unfold same_controller; simpl;
        repeat split; auto; try discriminate; intros _; apply Hn; discriminate.
    + unfold same_controller; simpl.
      repeat split; auto; try discriminate; intros _; apply Hn; discriminate.
  - rewrite (cool_unfold _ history p s Es). simpl. unfold same_controller; simpl.
    repeat split; auto; try discriminate; intros _; apply Hn; discriminate.
  - unfold state_logic. rewrite Es. simpl. unfold same_controller.
    repeat split; auto; try congruence. intros _. apply Hn. discriminate.
Qed.

Lemma loop_simulation periods : forall c r history,
  same_controller c r ->
  map view (control_loop_from c history periods) = reset_loop_from r history periods.
Proof.
  induction periods as [|p ps IH]; intros c r history HR; [reflexivity|].
  simpl.
  pose proof (tick_simulation c r (record_period history p) p
                (measured_slope (record_period history p) p) HR) as [HR' Hnotes].
  destruct (state_logic _ _ _ _) as [c' n] eqn:E1.
  destruct (tick_explicit_reset _ _ _ _) as [r' n'] eqn:E2.
  simpl in HR', Hnotes. subst n'.
  pose proof HR' as (Hs & Ht & Hr & Hc & Hl & Hn).
  simpl. f_equal.
  - unfold view, reset_view. simpl. rewrite <- Hs, <- Ht, <- Hr, <- Hc. f_equal.
    destruct (state c') eqn:Es; simpl; auto; f_equal; apply Hn; discriminate.
  - rewrite <- Hs. destruct (state c'); auto.
Qed.

End Refinement.

(** C8.  The PID locals are bound once and never rebound.  A run of the
    program shows, line for line, what the controller with an explicit reset
    at the LINEAR to NONLINEAR transition shows, whatever that controller's
    PID fields held before the reset.  In the program itself every PID
    iteration follows either the transition iteration, and then finds its
    locals unbound and works on zeros, or a PID iteration, and then finds
    the integral and the error which that iteration stored; and it stores
    its own integral and error for the next one. *)
Theorem pid_state_reset_once : forall periods garbage,
  let log := control_loop periods in
  map view log = reset_loop garbage periods /\
  (forall i l c,
     nth_error log i = Some l -> ctx_before log i = Some c ->
     state c = STATE_NONLINEAR ->
     (exists j cj lj,
        i = S j /\ ctx_before log j = Some cj /\ nth_error log j = Some lj /\
        ((state cj = STATE_LINEAR /\ pid c = None /\ pid_locals c = mkPid 0 0) \/
         (state cj = STATE_NONLINEAR /\
          pid c = Some (mkPid (pid_integral (pid_locals cj) (log_slope lj))
                              (pid_error (log_slope lj)))))) /\
     pid (log_ctx l) =
       Some (mkPid (pid_integral (pid_locals c) (log_slope l)) (pid_error (log_slope l)))).
Proof.
  intros periods garbage log. split.
  - apply loop_simulation. unfold same_controller, initial. simpl.
    repeat split; auto. intros H. now elim H.
  - intros i l c Hl Hc Hs. split.
    + destruct i as [|j].
      { unfold ctx_before in Hc. simpl in Hc. injection Hc as <-. discriminate. }
      destruct (ctx_before_S _ _ _ Hc) as (lj & Hlj & <-).
      destruct (loop_step _ _ _ Hlj) as (cj & h & p & Hcj & Hr & Hd & Hst).
      exists j, cj, lj. repeat split; auto.
      assert (Hfst : log_ctx lj = fst (state_logic cj h p (log_slope lj)))
        by now rewrite Hst.
      pose proof (state_logic_next cj h p (log_slope lj)) as Hn.
      rewrite <- Hfst, Hs in Hn.
      destruct (state cj) eqn:Es; simpl in Hn; try (destruct Hn; congruence).
      * left. destruct (proj1 (reachable_counters_ok _ Hr) Es) as [_ Hp].
        rewrite (linear_unfold _ _ _ _ Es) in Hfst.
        assert (Hp' : pid (log_ctx lj) = None)
          by (rewrite Hfst; destruct (S_REF <=? log_slope lj); exact Hp).
        repeat split; auto. unfold pid_locals. now rewrite Hp'.
      * right. split; [reflexivity|]. rewrite Hfst.
        exact (nonlinear_pid cj h p (log_slope lj) Es).
    + destruct (loop_step _ _ _ Hl) as (c0 & h & p & Hc0 & _ & _ & Hst).
      fold log in Hc0. rewrite Hc in Hc0. injection Hc0 as <-.
      pose proof (nonlinear_pid c h p (log_slope l) Hs) as Hp.
      now rewrite Hst in Hp.
Qed.

(** ** The slope statistic *)

Section Slope.

Lemma time_ordered_tail r history : time_ordered (r :: history) -> time_ordered history.
Proof.
  intros H i j ri rj Hij Hi Hj. apply (H (S i) (S j)); auto. lia.
Qed.


End Slope.

(** ** The square of a float *)

Section Squares.

(** A float that compares equal to a non-zero float is that float. *)
Lemma eqb_nonzero_eq (x y : float) :
  (x =? y) = true -> (y =? 0) = false -> x = y.
Proof.
  rewrite !eqb_spec. unfold SFeqb.
  destruct (SFcompare (Prim2SF x) (Prim2SF y)) as [[]|] eqn:E; try discriminate.
  intros _ Hz. apply SFcompare_Eq in E. destruct E as [E|(sx & sy & _ & E)].
  - now apply Prim2SF_inj.
  - rewrite E in Hz. change (Prim2SF 0) with (S754_zero false) in Hz. discriminate.
Qed.

Lemma eqb_zero_SF (x : float) : (x =? 0) = true -> exists s, Prim2SF x = S754_zero s.
Proof.
  rewrite eqb_spec. unfold SFeqb.
  destruct (SFcompare (Prim2SF x) (Prim2SF 0)) as [[]|] eqn:E; try discriminate.
  intros _. apply SFcompare_Eq in E. destruct E as [E|(sx & sy & E & _)].
  - exists false. exact E.
  - now exists sx.
Qed.

Lemma mul_opp_opp (x : float) : (- x) * (- x) = x * x.
Proof.
  apply Prim2SF_inj. rewrite !mul_spec, opp_spec.
  destruct (Prim2SF x) as [[]|[]| |[] m e]; reflexivity.
Qed.

Lemma square_nan (x : float) : is_nan x = true -> x * x = x.
Proof.
  intros H. apply Prim2SF_inj. rewrite mul_spec, (is_nan_SF x H). reflexivity.
Qed.

Lemma square_infinity (x : float) : is_infinity x = true -> x * x = abs x.
Proof.
  unfold is_infinity. intros H.
  apply eqb_nonzero_eq in H; [|reflexivity].
  apply Prim2SF_inj. rewrite mul_spec, H.
  apply (f_equal Prim2SF) in H. rewrite abs_spec in H.
  destruct (Prim2SF x) as [[]|[]| |[] m e]; try discriminate H; reflexivity.
Qed.

Lemma square_zero (x : float) : (x =? 0) = true -> x * x = 0.
Proof.
  intros H. destruct (eqb_zero_SF x H) as [s Hs].
  apply Prim2SF_inj. rewrite mul_spec, Hs. now destruct s.
Qed.

Lemma square_one (x : float) :
  ((if x <? 0 then - x else x) =? 1) = true -> x * x = 1.
Proof.
  intros H. apply eqb_nonzero_eq in H; [|reflexivity].
  destruct (x <? 0).
  - rewrite <- mul_opp_opp, H. reflexivity.
  - rewrite H. reflexivity.
Qed.



Variable pow2 : float -> CPython.c_call.


End Squares.

Section SlopeOnLibm.

Variable pow2 : float -> CPython.c_call.


End SlopeOnLibm.



(** ** The statistic on a correctly rounded C library *)

Section RoundedSquare.

(** On a C library whose [pow] is correctly rounded, [x ** 2] is the
    rounded product of [x] with itself whenever it returns, and what it
    raises is [OverflowError]. *)
Lemma float_pow2_rounded x r :
  CPython.float_pow2 CPython.rounded_square x = CPython.Returned r -> r = x * x.
Proof.
  unfold CPython.float_pow2.
  destruct (is_nan x) eqn:En.
  { intros H. injection H as <-. symmetry. now apply square_nan. }
  destruct (is_infinity x) eqn:Ei.
  { intros H. injection H as <-. symmetry. now apply square_infinity. }
  destruct (x =? 0) eqn:Ez.
  { intros H. injection H as <-. symmetry. now apply square_zero. }
  cbv zeta. destruct ((if x <? 0 then - x else x) =? 1) eqn:E1.
  { intros H. injection H as <-. symmetry. now apply square_one. }
  unfold CPython.adjust_erange, CPython.rounded_square.
  cbn [CPython.c_errno CPython.c_value].
  change (0 =? 0)%Z with true. cbv iota.
  destruct (_ || _); cbn; [discriminate|].
  intros H. injection H as <-.
  destruct (x <? 0); [apply mul_opp_opp | reflexivity].
Qed.

Lemma float_pow2_rounded_raises x e :
  CPython.float_pow2 CPython.rounded_square x = CPython.Raised e ->
  e = CPython.OverflowError.
Proof.
  unfold CPython.float_pow2.
  destruct (is_nan x); [discriminate|].
  destruct (is_infinity x); [discriminate|].
  destruct (x =? 0); [discriminate|].
  cbv zeta. destruct (_ =? 1); [discriminate|].
  unfold CPython.adjust_erange, CPython.rounded_square.
  cbn [CPython.c_errno CPython.c_value].
  change (0 =? 0)%Z with true. cbv iota.
  destruct (_ || _); cbn; [|discriminate].
  intros H. now injection H as <-.
Qed.

Lemma sum_from_rounded (f : float -> float) xs : forall acc den,
  CPython.sum_from acc
    (map (fun x => CPython.float_pow2 CPython.rounded_square (f x)) xs)
    = CPython.Returned den ->
  den = fold_left PrimFloat.add (map (fun x => f x * f x) xs) acc.
Proof.
  induction xs as [|x xs IH]; simpl; intros acc den H.
  - now injection H as <-.
  - destruct (CPython.float_pow2 CPython.rounded_square (f x)) as [e|r] eqn:Er;
      [discriminate|].
    apply float_pow2_rounded in Er. subst r. now apply IH.
Qed.

Lemma sum_from_rounded_raises (f : float -> float) xs : forall acc e,
  CPython.sum_from acc
    (map (fun x => CPython.float_pow2 CPython.rounded_square (f x)) xs)
    = CPython.Raised e ->
  e = CPython.OverflowError.
Proof.
  induction xs as [|x xs IH]; simpl; intros acc e H; [discriminate|].
  destruct (CPython.float_pow2 CPython.rounded_square (f x)) as [e'|r] eqn:Er.
  - injection H as <-. now apply float_pow2_rounded_raises in Er.
  - now apply IH in H.
Qed.

(** [slope_over_window] is the value of the statistic on a C library whose
    [pow] is correctly rounded, wherever the statistic returns; where it
    does not, it raises [OverflowError]. *)
Lemma slope_over_window_rounded now history window_sec :
  match CPython.slope_over_window CPython.rounded_square now history window_sec with
  | CPython.Returned v => slope_over_window now history window_sec = v
  | CPython.Raised e => e = CPython.OverflowError
  end.
Proof.
  unfold CPython.slope_over_window, slope_over_window.
  destruct (Nat.ltb _ 6); [reflexivity|].
  cbv zeta.
  destruct (CPython.sum_from _ _) as [e|den] eqn:Ed.
  - now apply (sum_from_rounded_raises (fun x => x - _)) in Ed.
  - apply (sum_from_rounded (fun x => x - _)) in Ed. subst den. reflexivity.
Qed.

End RoundedSquare.

(** ** The statements on sample runs *)

(** The decision procedure for time order is sound. *)
Lemma ordered_b_sound history : ordered_b history = true -> time_ordered history.
Proof.
  induction history as [|a rest IH]; intros H i j ri rj Hij Hi Hj.
  - destruct i; discriminate.
  - simpl in H. apply Bool.andb_true_iff in H. destruct H as [Ha Hrest].
    destruct i as [|i].
    + simpl in Hi. injection Hi as <-.
      apply nth_error_In in Hj.
      change (forallb (fun r' => fst a <=? fst r') (a :: rest) = true) in Ha.
      rewrite forallb_forall in Ha. exact (Ha rj Hj).
    + destruct j as [|j]; [lia|].
      apply (IH Hrest i j ri rj); auto. lia.
Qed.

(** The phase order on [experiment]: the fourth iteration goes from the PID
    phase to HOLD. *)
Lemma phase_order_forward_witness :
  let phases :=
    STATE_LINEAR :: map (fun l => state (log_ctx l)) (control_loop experiment) in
  nth_error phases 3 = Some STATE_NONLINEAR /\
  nth_error phases 4 = Some STATE_HOLD /\
  STATE_NONLINEAR <> STATE_DONE /\
  (STATE_HOLD = STATE_NONLINEAR \/
   (STATE_HOLD = next_state STATE_NONLINEAR /\ STATE_HOLD <> STATE_NONLINEAR)).
Proof.
  intros phases.
  assert (H3 : nth_error phases 3 = Some STATE_NONLINEAR) by (vm_compute; reflexivity).
  assert (H4 : nth_error phases 4 = Some STATE_HOLD) by (vm_compute; reflexivity).
  split; [exact H3|]. split; [exact H4|].
  exact (phase_order_forward experiment 3 _ _ H3 H4).
Defined.

(** Plateau detection on [experiment]: iterations 1, 2 and 3 qualify, and
    iteration 3 enters HOLD. *)
Lemma plateau_detection_witness :
  let log := control_loop experiment in
  exists l c,
    nth_error log 3 = Some l /\ ctx_before log 3 = Some c /\
    state c = STATE_NONLINEAR /\ plateau_counter c = 2%nat /\
    state (log_ctx l) = STATE_HOLD /\
    ramp (log_ctx l) = 0 /\ temp (log_ctx l) = MAX_TEMP /\
    qualifying log 1 /\ qualifying log 2 /\ qualifying log 3.
Proof.
  intros log.
  destruct (nth_error log 3) as [l|] eqn:El; [|vm_compute in El; discriminate].
  destruct (ctx_before log 3) as [c|] eqn:Ec; [|vm_compute in Ec; discriminate].
  assert (Hs : state c = STATE_NONLINEAR)
    by (vm_compute in Ec; injection Ec as <-; reflexivity).
  assert (Hk : plateau_counter c = 2%nat)
    by (vm_compute in Ec; injection Ec as <-; reflexivity).
  assert (Hh : state (log_ctx l) = STATE_HOLD)
    by (vm_compute in El; injection El as <-; reflexivity).
  destruct (plateau_detection experiment 3 l c El Ec Hs) as (_ & _ & Hiff & Hout & _).
  destruct (proj1 Hiff Hh) as (j & Hj & Q1 & Q2 & Q3).
  injection Hj as <-.
  destruct (Hout Hh) as (Hr & Ht & _).
  exists l, c. repeat split; auto.
Defined.


(** After a blackout of the read-out a single reading is left in the
    ten-minute window: the slope is undefined, the range is 0, and the
    controller leaves HOLD. *)
Lemma hold_undefined_slope_passes_witness :
  slope_over_window 720 blackout_history (STABILITY_WINDOW_MIN * 60) = None /\
  range_over_window 720 blackout_history STABILITY_WINDOW_MIN = Some 0 /\
  state (fst (state_logic holding blackout_history blackout_period 0)) = STATE_COOL.
Proof.
  assert (Hnone : slope_over_window (t_slope10 blackout_period) blackout_history
                    (STABILITY_WINDOW_MIN * 60) = None) by (vm_compute; reflexivity).
  split; [exact Hnone|]. split; [vm_compute; reflexivity|].
  destruct (hold_undefined_slope_passes holding blackout_history blackout_period 0
              eq_refl Hnone) as (_ & _ & Hiff).
  apply Hiff. eexists. split; vm_compute; reflexivity.
Defined.

(** The end of [experiment]: the last iteration in HOLD sends the cool rate
    and the target 45 at once, and the COOL iteration after it sends the
    ramp 0 and ends the run. *)
Lemma cool_reaches_start_temp_witness :
  tail_commands 22 (control_loop experiment)
    = [(STATE_HOLD, 100, 0); (STATE_COOL, 45, -1); (STATE_DONE, 45, 0)] /\
  exists c,
    ctx_before (control_loop experiment) 24 = Some c /\ state c = STATE_COOL /\
    ramp c = COOL_RAMP /\ temp c = START_TEMP /\
    exists l,
      control_loop_from c [] [quiet_period] = [l] /\
      state (log_ctx l) = STATE_DONE /\ temp (log_ctx l) = START_TEMP /\
      ramp (log_ctx l) = 0.
Proof.
  split; [vm_compute; reflexivity|].
  destruct (nth_error (control_loop experiment) 24) as [l|] eqn:El;
    [|vm_compute in El; discriminate].
  destruct (loop_step _ _ _ El) as (c & h & p & Hc & Hr & _ & _).
  assert (Hs : state c = STATE_COOL)
    by (vm_compute in Hc; injection Hc as <-; reflexivity).
  destruct (cool_reaches_start_temp c [] quiet_period [] Hr Hs)
    as ((H1 & H2) & l' & H3 & H4 & H5 & H6 & _).
  exists c. repeat split; auto. exists l'. repeat split; auto.
Defined.

(** The third iteration of [warmup] is the first with a slope of [S_REF] or
    more, and makes the transition with the target at 48. *)
Lemma linear_phase_tick_witness :
  let log := control_loop warmup in
  exists l c,
    nth_error log 2 = Some l /\ ctx_before log 2 = Some c /\
    state c = STATE_LINEAR /\ below_reference log 2 /\
    state (log_ctx l) = STATE_NONLINEAR /\ ramp (log_ctx l) = 0 /\
    temp (log_ctx l) = temp c + FAST_RAMP * dt_min /\ temp (log_ctx l) = 48.
Proof.
  intros log.
  destruct (nth_error log 2) as [l|] eqn:El; [|vm_compute in El; discriminate].
  destruct (ctx_before log 2) as [c|] eqn:Ec; [|vm_compute in Ec; discriminate].
  assert (Hs : state c = STATE_LINEAR)
    by (vm_compute in Ec; injection Ec as <-; reflexivity).
  assert (Hslope : (S_REF <=? log_slope l) = true)
    by (vm_compute in El; injection El as <-; reflexivity).
  assert (Ht : temp (log_ctx l) = 48)
    by (vm_compute in El; injection El as <-; reflexivity).
  destruct (linear_phase_tick warmup 2 l c El Ec) as (Hiff & Htick).
  destruct (Htick Hs) as (Htemp & _ & Hgo).
  destruct (Hgo Hslope) as (Hn & Hr & _).
  exists l, c. repeat split; auto. now apply Hiff.
Defined.

(** On [experiment] the program and the explicit-reset controller agree,
    and the third iteration finds the PID locals of the second. *)
Lemma pid_state_reset_once_witness :
  let log := control_loop experiment in
  map view log = reset_loop (mkPid 7 7) experiment /\
  exists l c,
    nth_error log 2 = Some l /\ ctx_before log 2 = Some c /\
    pid c = Some (mkPid 0.01 (S_REF - log_slope l)) /\
    pid (log_ctx l) =
      Some (mkPid (pid_integral (pid_locals c) (log_slope l)) (pid_error (log_slope l))).
Proof.
  intros log.
  destruct (pid_state_reset_once experiment (mkPid 7 7)) as (Hsim & Hpid).
  split; [exact Hsim|].
  destruct (nth_error log 2) as [l|] eqn:El; [|vm_compute in El; discriminate].
  destruct (ctx_before log 2) as [c|] eqn:Ec; [|vm_compute in Ec; discriminate].
  assert (Hs : state c = STATE_NONLINEAR)
    by (vm_compute in Ec; injection Ec as <-; reflexivity).
  assert (Hp : pid c = Some (mkPid 0.01 (S_REF - log_slope l))).
  { vm_compute in Ec. injection Ec as <-. vm_compute in El. injection El as <-.
    vm_compute. reflexivity. }
  destruct (Hpid 2%nat l c El Ec Hs) as (_ & Hnew).
  exists l, c. repeat split; auto.
Defined.


(** ** More facts about binary64 comparisons *)

Section FloatOrder.

Lemma SFleb_trans (x y z : spec_float) :
  SFleb x y = true -> SFleb y z = true -> SFleb x z = true.
Proof.
  unfold SFleb.
  destruct x as [sx|sx| |sx mx ex], y as [sy|sy| |sy my ey], z as [sz|sz| |sz mz ez];
    simpl; try destruct sx; try destruct sy; try destruct sz; simpl;
    try congruence; auto;
    change (Pos.compare_cont Eq) with Pos.compare;
    destruct (Z.compare_spec ex ey), (Z.compare_spec ey ez), (Z.compare_spec ex ez);
    try congruence; try lia; subst;
    destruct (Pos.compare_spec mx my), (Pos.compare_spec my mz), (Pos.compare_spec mx mz);
    simpl; try congruence; try lia.
Qed.

Lemma leb_trans (x y z : float) :
  (x <=? y) = true -> (y <=? z) = true -> (x <=? z) = true.
Proof. rewrite !leb_spec. apply SFleb_trans. Qed.

Lemma is_number_nan (x : float) : is_number x = true -> is_nan x = false.
Proof. unfold is_number. now destruct (is_nan x). Qed.

(** Two numbers compare one way or the other. *)
Lemma number_not_ltb (x y : float) :
  is_number x = true -> is_number y = true -> (x <? y) = false -> (y <=? x) = true.
Proof.
  intros Hx Hy. apply not_ltb_geb; now apply is_number_nan.
Qed.

Lemma leb_refl_number (x : float) : is_number x = true -> (x <=? x) = true.
Proof.
  intros Hx. destruct (x <? x) eqn:E.
  - now apply ltb_leb.
  - now apply number_not_ltb.
Qed.

(** What compares below or equal to something is a number. *)
Lemma leb_number_l (x y : float) : (x <=? y) = true -> is_number x = true.
Proof.
  unfold is_number, is_nan. rewrite leb_spec, eqb_spec. unfold SFleb, SFeqb.
  destruct (Prim2SF x) as [[]|[]| |[]]; simpl; try reflexivity; try discriminate;
    intros _; rewrite Z.compare_refl;
    change (Pos.compare_cont Eq) with Pos.compare; now rewrite Pos.compare_refl.
Qed.

End FloatOrder.

(** ** Sorting *)

Section SortBy.

Context {A : Type} (lt : A -> A -> bool).

Lemma insert_by_perm x l : Permutation (insert_by lt x l) (x :: l).
Proof.
  induction l as [|y r IH]; simpl; [reflexivity|].
  destruct (lt y x); [|reflexivity].
  rewrite IH. apply perm_swap.
Qed.

Lemma sort_by_perm l : Permutation (sort_by lt l) l.
Proof.
  induction l as [|x l IH]; simpl; [reflexivity|].
  rewrite insert_by_perm. now constructor.
Qed.

Lemma sort_by_length l : length (sort_by lt l) = length l.
Proof. apply Permutation_length, sort_by_perm. Qed.

Variables (P : A -> Prop) (le : A -> A -> Prop).
Hypothesis lt_le : forall x y, lt x y = true -> le x y.
Hypothesis nlt_le : forall x y, P x -> P y -> lt x y = false -> le y x.
Hypothesis le_trans : forall x y z, le x y -> le y z -> le x z.

Lemma insert_by_sorted x l :
  P x -> Forall P l -> StronglySorted le l -> StronglySorted le (insert_by lt x l).
Proof.
  intros Px. induction l as [|y r IH]; intros HP Hs; simpl.
  - repeat constructor.
  - inversion HP as [|? ? Py Pr]; subst. inversion Hs as [|? ? Hr Hy]; subst.
    destruct (lt y x) eqn:E.
    + constructor; [now apply IH|].
      eapply Permutation_Forall; [symmetry; apply insert_by_perm|].
      constructor; [now apply lt_le | exact Hy].
    + assert (Hxy : le x y) by now apply nlt_le.
      constructor; [exact Hs|].
      constructor; [exact Hxy|].
      eapply Forall_impl; [|exact Hy]. intros z Hz. now apply le_trans with y.
Qed.

Lemma sort_by_sorted l : Forall P l -> StronglySorted le (sort_by lt l).
Proof.
  induction l as [|x l IH]; intros HP; simpl; [constructor|].
  inversion HP; subst.
  apply insert_by_sorted; auto.
  eapply Permutation_Forall; [symmetry; apply sort_by_perm | assumption].
Qed.

Lemma sorted_app_le l1 l2 :
  StronglySorted le (l1 ++ l2) -> forall x y, In x l1 -> In y l2 -> le x y.
Proof.
  induction l1 as [|a l1 IH]; intros Hs x y Hx Hy; [contradiction|].
  simpl in Hs. inversion Hs as [|? ? Hr Ha]; subst.
  destruct Hx as [<-|Hx].
  - rewrite Forall_forall in Ha. apply Ha, in_or_app. now right.
  - now apply IH.
Qed.

End SortBy.

(** ** The median *)

Section Median.

Lemma sorted_floats vals :
  Forall (fun v => is_number v = true) vals ->
  StronglySorted (fun x y => (x <=? y) = true) (sort_by PrimFloat.ltb vals).
Proof.
  apply sort_by_sorted.
  - apply ltb_leb.
  - intros x y Hx Hy. now apply number_not_ltb.
  - apply leb_trans.
Qed.

Lemma odd_half n : Nat.odd n = true -> n = (2 * (n / 2) + 1)%nat.
Proof.
  intros H. apply Nat.odd_spec in H. destruct H as [m ->].
  replace ((2 * m + 1) / 2)%nat with m; [reflexivity|].
  apply (Nat.div_unique _ 2 m 1); lia.
Qed.

Lemma even_half n : Nat.odd n = false -> n = (2 * (n / 2))%nat.
Proof.
  intros H. rewrite <- Nat.negb_even in H. apply Bool.negb_false_iff in H.
  apply Nat.even_spec in H. destruct H as [m ->].
  replace (2 * m / 2)%nat with m; [reflexivity|].
  apply (Nat.div_unique _ 2 m 0); lia.
Qed.

(** The median of a list of numbers splits it: as many values at or below
    the middle as at or above it. *)
Lemma median_splits vals :
  vals <> [] ->
  Forall (fun v => is_number v = true) vals ->
  exists lo mid hi,
    Permutation vals (lo ++ mid ++ hi) /\ length lo = length hi /\
    (forall x m, In x lo -> In m mid -> (x <=? m) = true) /\
    (forall m x, In m mid -> In x hi -> (m <=? x) = true) /\
    (mid = [Statistics.median vals] \/
     exists a b, mid = [a; b] /\ (a <=? b) = true /\
                 Statistics.median vals = (a + b) / 2).
Proof.
  intros Hne Hnum.
  pose proof (sorted_floats vals Hnum) as Hs.
  pose proof (sort_by_perm PrimFloat.ltb vals) as Hp.
  pose proof (sort_by_length PrimFloat.ltb vals) as Hl.
  unfold Statistics.median.
  set (data := sort_by PrimFloat.ltb vals) in *.
  set (n := length data) in *.
  assert (Hn : n <> 0%nat).
  { rewrite Hl. destruct vals; [congruence | simpl; lia]. }
  destruct (Nat.odd n) eqn:Eodd.
  - pose proof (odd_half n Eodd) as Hk.
    destruct (nth_split data 0 (n := (n / 2)%nat)) as (l1 & l2 & Hd & Hl1);
      [lia|].
    exists l1, [nth (n / 2) data 0], l2.
    rewrite Hd in Hs.
    split; [cbn [app]; rewrite <- Hd; now symmetry|].
    split.
    { assert (length data = (length l1 + S (length l2))%nat)
        by (rewrite Hd at 1; rewrite length_app; reflexivity).
      fold n in H. lia. }
    split; [|split; [|now left]].
    + intros x m Hx [<-|[]].
      apply (sorted_app_le _ l1 (nth (n / 2) data 0 :: l2) Hs); simpl; auto.
    + intros m x [<-|[]] Hx.
      change (l1 ++ nth (n / 2) data 0 :: l2)
        with (l1 ++ [nth (n / 2) data 0] ++ l2) in Hs.
      rewrite app_assoc in Hs.
      apply (sorted_app_le _ _ l2 Hs); auto.
      apply in_or_app. right. now left.
  - pose proof (even_half n Eodd) as Hk.
    destruct (nth_split data 0 (n := (n / 2 - 1)%nat)) as (l1 & r & Hd & Hl1);
      [lia|].
    assert (Hlen : length data = (length l1 + S (length r))%nat)
      by (rewrite Hd at 1; rewrite length_app; reflexivity).
    fold n in Hlen.
    destruct r as [|b l2]; [simpl in Hlen; lia|].
    assert (Hb : nth (n / 2) data 0 = b).
    { rewrite Hd at 1. rewrite app_nth2 by lia.
      replace (n / 2 - length l1)%nat with 1%nat by lia. reflexivity. }
    set (a := nth (n / 2 - 1) data 0) in *.
    exists l1, [a; b], l2.
    rewrite Hd in Hs.
    split; [cbn [app]; rewrite <- Hd; now symmetry|].
    split; [simpl in Hlen; lia|].
    assert (Hab : (a <=? b) = true).
    { pose proof Hs as Hs'.
      change (l1 ++ a :: b :: l2) with (l1 ++ [a] ++ b :: l2) in Hs'.
      rewrite app_assoc in Hs'.
      apply (sorted_app_le _ _ _ Hs'); [apply in_or_app; right|]; now left. }
    split; [|split].
    + intros x m Hx Hm.
      apply (sorted_app_le _ l1 (a :: b :: l2) Hs); auto.
      destruct Hm as [<-|[<-|[]]]; simpl; auto.
    + intros m x Hm Hx.
      change (l1 ++ a :: b :: l2) with (l1 ++ [a; b] ++ l2) in Hs.
      rewrite app_assoc in Hs.
      apply (sorted_app_le _ _ l2 Hs); auto.
      apply in_or_app. now right.
    + right. exists a, b. rewrite Hb. auto.
Qed.

End Median.

(** X1.  The windowed median is undefined exactly when no sample falls in
    the window.  When the in-window values are numbers it splits them: as
    many values at or below the middle as at or above it, the median being
    the middle value, or the mean of the two middle values. *)
Theorem median_of_window : forall now history seconds,
  let vals := map snd (in_window history (now - seconds)) in
  (median_last_seconds now history seconds = None <-> vals = []) /\
  (Forall (fun v => is_number v = true) vals ->
   forall m, median_last_seconds now history seconds = Some m ->
   exists lo mid hi,
     Permutation vals (lo ++ mid ++ hi) /\ length lo = length hi /\
     (forall x y, In x lo -> In y mid -> (x <=? y) = true) /\
     (forall y x, In y mid -> In x hi -> (y <=? x) = true) /\
     (mid = [m] \/
      exists a b, mid = [a; b] /\ (a <=? b) = true /\ m = (a + b) / 2)).
Proof.
  intros now history seconds vals. unfold median_last_seconds. fold vals.
  split.
  - destruct vals; split; congruence.
  - intros Hnum m Hm.
    assert (Hne : vals <> []) by (destruct vals; [discriminate | congruence]).
    assert (Hmed : m = Statistics.median vals)
      by (destruct vals; [discriminate | now injection Hm]).
    destruct (median_splits vals Hne Hnum) as (lo & mid & hi & H1 & H2 & H3 & H4 & H5).
    exists lo, mid, hi. rewrite Hmed. auto.
Qed.

(** The median of the six values of [six_points] is 2.5, and splits them. *)
Lemma median_of_window_witness :
  median_last_seconds 300 six_points 600 = Some 2.5 /\
  exists lo mid hi,
    Permutation (map snd (in_window six_points (300 - 600))) (lo ++ mid ++ hi) /\
    length lo = length hi /\
    (mid = [2.5] \/ exists a b, mid = [a; b] /\ (a <=? b) = true /\ 2.5 = (a + b) / 2).
Proof.
  destruct (median_of_window 300 six_points 600) as (_ & Hsplit).
  assert (Hm : median_last_seconds 300 six_points 600 = Some 2.5)
    by (vm_compute; reflexivity).
  split; [exact Hm|].
  destruct (Hsplit ltac:(vm_compute; repeat constructor) 2.5 Hm)
    as (lo & mid & hi & Hp & Hlen & _ & _ & Hmid).
  exists lo, mid, hi. auto.
Defined.

(** ** The range *)

Section Range.

Lemma max_list_spec vs : forall acc,
  is_number acc = true -> Forall (fun v => is_number v = true) vs ->
  In (Py.max_list acc vs) (acc :: vs) /\
  (acc <=? Py.max_list acc vs) = true /\
  forall x, In x vs -> (x <=? Py.max_list acc vs) = true.
Proof.
  unfold Py.max_list.
  induction vs as [|x vs IH]; intros acc Hacc Hvs; simpl.
  - split; [now left|]. split; [now apply leb_refl_number|]. contradiction.
  - inversion Hvs as [|? ? Hx Hvs']; subst.
    assert (Hm : is_number (Py.max acc x) = true /\
                 (acc <=? Py.max acc x) = true /\ (x <=? Py.max acc x) = true /\
                 (Py.max acc x = acc \/ Py.max acc x = x)).
    { unfold Py.max. destruct (acc <? x) eqn:E.
      - repeat split; auto. now apply ltb_leb. now apply leb_refl_number.
      - repeat split; auto. now apply leb_refl_number. now apply number_not_ltb. }
    destruct Hm as (Hn & Ha & Hxm & Hor).
    destruct (IH (Py.max acc x) Hn Hvs') as (Hin & Hle & Hall).
    split; [|split].
    + destruct Hin as [Hin|Hin]; [|now right; right].
      rewrite <- Hin. destruct Hor as [->| ->]; [now left | now right; left].
    + now apply leb_trans with (Py.max acc x).
    + intros y [<-|Hy]; [now apply leb_trans with (Py.max acc x) | now apply Hall].
Qed.

Lemma min_list_spec vs : forall acc,
  is_number acc = true -> Forall (fun v => is_number v = true) vs ->
  In (Py.min_list acc vs) (acc :: vs) /\
  (Py.min_list acc vs <=? acc) = true /\
  forall x, In x vs -> (Py.min_list acc vs <=? x) = true.
Proof.
  unfold Py.min_list.
  induction vs as [|x vs IH]; intros acc Hacc Hvs; simpl.
  - split; [now left|]. split; [now apply leb_refl_number|]. contradiction.
  - inversion Hvs as [|? ? Hx Hvs']; subst.
    assert (Hm : is_number (Py.min acc x) = true /\
                 (Py.min acc x <=? acc) = true /\ (Py.min acc x <=? x) = true /\
                 (Py.min acc x = acc \/ Py.min acc x = x)).
    { unfold Py.min. destruct (x <? acc) eqn:E.
      - repeat split; auto. now apply ltb_leb. now apply leb_refl_number.
      - repeat split; auto. now apply leb_refl_number. now apply number_not_ltb. }
    destruct Hm as (Hn & Ha & Hxm & Hor).
    destruct (IH (Py.min acc x) Hn Hvs') as (Hin & Hle & Hall).
    split; [|split].
    + destruct Hin as [Hin|Hin]; [|now right; right].
      rewrite <- Hin. destruct Hor as [->| ->]; [now left | now right; left].
    + now apply leb_trans with (Py.min acc x).
    + intros y [<-|Hy]; [now apply leb_trans with (Py.min acc x) | now apply Hall].
Qed.

End Range.

(** X2.  The windowed range is undefined exactly when no sample falls in
    the window.  When the in-window values are numbers it is the difference
    [hi - lo] of two of them, with every in-window value between [lo] and
    [hi]. *)
Theorem range_of_window : forall now history window_min,
  let vals := map snd (in_window history (now - window_min * 60)) in
  (range_over_window now history window_min = None <-> vals = []) /\
  (Forall (fun v => is_number v = true) vals ->
   forall r, range_over_window now history window_min = Some r ->
   exists lo hi,
     In lo vals /\ In hi vals /\ r = hi - lo /\
     forall v, In v vals -> (lo <=? v) = true /\ (v <=? hi) = true).
Proof.
  intros now history window_min vals. unfold range_over_window. fold vals.
  split.
  - destruct vals; split; congruence.
  - intros Hnum r Hr. destruct vals as [|v vs]; [discriminate|].
    injection Hr as <-. inversion Hnum as [|? ? Hv Hvs]; subst.
    destruct (max_list_spec vs v Hv Hvs) as (Hin1 & Hle1 & Hall1).
    destruct (min_list_spec vs v Hv Hvs) as (Hin2 & Hle2 & Hall2).
    exists (Py.min_list v vs), (Py.max_list v vs).
    repeat split; auto; destruct H as [<-|H]; auto.
Qed.

(** The range of [noisy_window] is 0.56 - 0.5. *)
Lemma range_of_window_witness :
  exists lo hi,
    range_over_window 300 noisy_window 10 = Some (hi - lo) /\
    In lo (map snd noisy_window) /\ In hi (map snd noisy_window) /\
    forall v, In v (map snd noisy_window) -> (lo <=? v) = true /\ (v <=? hi) = true.
Proof.
  destruct (range_of_window 300 noisy_window 10) as (_ & Hspread).
  destruct (range_over_window 300 noisy_window 10) as [r|] eqn:Er;
    [|vm_compute in Er; discriminate].
  destruct (Hspread ltac:(vm_compute; repeat constructor) r eq_refl)
    as (lo & hi & H1 & H2 & H3 & H4).
  exists lo, hi. rewrite H3. auto.
Defined.

(** X3.  Where the slope over a window is defined, so are the median and
    the range over the same window; and the range over a window of
    [window_min] minutes is defined exactly when the median over
    [window_min * 60] seconds is. *)
Theorem statistics_defined_together : forall now history window_min,
  (slope_over_window now history (window_min * 60) <> None ->
   median_last_seconds now history (window_min * 60) <> None /\
   range_over_window now history window_min <> None) /\
  (range_over_window now history window_min = None <->
   median_last_seconds now history (window_min * 60) = None).
Proof.
  intros now history window_min.
  unfold slope_over_window, median_last_seconds, range_over_window.
  set (pts := in_window history (now - window_min * 60)).
  split.
  - destruct (Nat.ltb (length pts) 6) eqn:E; [congruence|].
    apply Nat.ltb_ge in E. intros _.
    destruct pts; [simpl in E; lia|]. simpl. split; discriminate.
  - destruct pts; simpl; split; congruence.
Qed.

Lemma statistics_defined_together_witness :
  median_last_seconds 300 six_points (10 * 60) <> None /\
  range_over_window 300 six_points 10 <> None.
Proof.
  apply (proj1 (statistics_defined_together 300 six_points 10)).
  vm_compute. discriminate.
Defined.

(** ** The sample buffer *)

Section Buffer.

Lemma lastn_length {A : Type} n (l : list A) : length (lastn n l) <= n.
Proof. unfold lastn. rewrite length_skipn. lia. Qed.

Lemma lastn_app_ge {A : Type} n (pre l : list A) :
  n <= length l -> lastn n (pre ++ l) = lastn n l.
Proof.
  intros H. unfold lastn. rewrite length_app, skipn_app.
  rewrite skipn_all2 by lia. simpl. f_equal. lia.
Qed.

Lemma lastn_app_lastn {A : Type} n (l m : list A) :
  lastn n (lastn n l ++ m) = lastn n (l ++ m).
Proof.
  destruct (Nat.le_gt_cases (length l) n) as [H|H].
  - unfold lastn at 2. replace (length l - n)%nat with 0%nat by lia. reflexivity.
  - rewrite <- (firstn_skipn (length l - n) l) at 2.
    rewrite <- app_assoc. fold (lastn n l).
    symmetry. apply lastn_app_ge.
    rewrite length_app. unfold lastn. rewrite length_skipn. lia.
Qed.

Lemma deque_append_lastn history r :
  (Z.of_nat (length history) <= HISTORY_MAXLEN)%Z ->
  deque_append history r = lastn (Z.to_nat HISTORY_MAXLEN) (history ++ [r]).
Proof.
  intros H. unfold deque_append, lastn.
  assert (Hlen : length (history ++ [r]) = S (length history))
    by (rewrite length_app; simpl; lia).
  destruct (HISTORY_MAXLEN <? Z.of_nat (length (history ++ [r])))%Z eqn:E.
  - apply Z.ltb_lt in E.
    replace (length (history ++ [r]) - Z.to_nat HISTORY_MAXLEN)%nat with 1%nat by lia.
    reflexivity.
  - apply Z.ltb_ge in E.
    replace (length (history ++ [r]) - Z.to_nat HISTORY_MAXLEN)%nat with 0%nat by lia.
    reflexivity.
Qed.

Lemma capacity_positive : (0 <= HISTORY_MAXLEN)%Z.
Proof. discriminate. Qed.

Lemma lastn_capacity {A : Type} (l : list A) :
  (Z.of_nat (length (lastn (Z.to_nat HISTORY_MAXLEN) l)) <= HISTORY_MAXLEN)%Z.
Proof.
  pose proof (lastn_length (Z.to_nat HISTORY_MAXLEN) l).
  pose proof capacity_positive. lia.
Qed.

Lemma lastn_fits {A : Type} (l : list A) :
  (Z.of_nat (length l) <= HISTORY_MAXLEN)%Z -> lastn (Z.to_nat HISTORY_MAXLEN) l = l.
Proof.
  intros H. unfold lastn.
  replace (length l - Z.to_nat HISTORY_MAXLEN)%nat with 0%nat by lia. reflexivity.
Qed.

Lemma record_period_lastn p : forall history,
  (Z.of_nat (length history) <= HISTORY_MAXLEN)%Z ->
  record_period history p = lastn (Z.to_nat HISTORY_MAXLEN) (history ++ polled p).
Proof.
  unfold record_period.
  induction (polled p) as [|r rs IH]; intros history H; cbn [fold_left].
  - rewrite app_nil_r. symmetry. now apply lastn_fits.
  - rewrite IH.
    + rewrite (deque_append_lastn _ _ H), lastn_app_lastn, <- app_assoc. reflexivity.
    + rewrite (deque_append_lastn _ _ H). apply lastn_capacity.
Qed.

Lemma fold_record_lastn periods : forall history,
  (Z.of_nat (length history) <= HISTORY_MAXLEN)%Z ->
  fold_left record_period periods history =
  lastn (Z.to_nat HISTORY_MAXLEN) (history ++ concat (map polled periods)).
Proof.
  induction periods as [|p ps IH]; intros history H; cbn [fold_left map concat].
  - rewrite app_nil_r. symmetry. now apply lastn_fits.
  - rewrite IH.
    + rewrite (record_period_lastn _ _ H), lastn_app_lastn, <- app_assoc. reflexivity.
    + rewrite (record_period_lastn _ _ H). apply lastn_capacity.
Qed.

(** The slope logged by an iteration is measured on the buffer as the
    polling sub-loops up to that iteration have left it. *)
Lemma loop_slope_buffer periods : forall c history i l,
  nth_error (control_loop_from c history periods) i = Some l ->
  exists p, nth_error periods i = Some p /\
    log_slope l =
    measured_slope (fold_left record_period (firstn (S i) periods) history) p.
Proof.
  induction periods as [|p ps IH]; intros c history i l Hl.
  - destruct i; discriminate.
  - simpl in Hl.
    destruct (state_logic c (record_period history p) p
                (measured_slope (record_period history p) p)) as [c' notes].
    destruct i as [|i].
    + simpl in Hl. injection Hl as <-. exists p. split; reflexivity.
    + simpl in Hl.
      assert (Hl' : nth_error (control_loop_from c' (record_period history p) ps) i
                    = Some l).
      { destruct (state c'); auto; destruct i; discriminate. }
      destruct (IH _ _ _ _ Hl') as (q & Hq & Hs).
      exists q. split; [exact Hq|]. exact Hs.
Qed.

End Buffer.

(** X4.  The buffer is a bounded first-in-first-out store: after any
    sequence of polling periods it holds the latest readings, in order of
    arrival and at most 100000 of them; and the slope which the [i]-th
    iteration of the loop logs is measured on the buffer left by the first
    [i+1] polling periods. *)
Theorem buffer_keeps_latest_readings : forall periods,
  history_after periods =
    lastn (Z.to_nat HISTORY_MAXLEN) (concat (map polled periods)) /\
  (Z.of_nat (length (history_after periods)) <= HISTORY_MAXLEN)%Z /\
  (forall i l, nth_error (control_loop periods) i = Some l ->
     exists p, nth_error periods i = Some p /\
       log_slope l = measured_slope (history_after (firstn (S i) periods)) p).
Proof.
  intros periods. unfold history_after.
  assert (H0 : (Z.of_nat (length (@nil Reading)) <= HISTORY_MAXLEN)%Z) by discriminate.
  rewrite (fold_record_lastn periods [] H0). cbn [app].
  split; [reflexivity|]. split; [apply lastn_capacity|].
  intros i l Hl. exact (loop_slope_buffer periods initial [] i l Hl).
Qed.

(** ** Windows of a time-ordered buffer *)

Section Windows.

Lemma time_ordered_suffix old history :
  time_ordered (old ++ history) -> time_ordered history.
Proof.
  induction old as [|a old IH]; intros H; [exact H|].
  apply IH. exact (time_ordered_tail _ _ H).
Qed.

(** In a time-ordered buffer everything in front of a window is older than
    its cut-off. *)
Lemma in_window_tail history cutoff :
  time_ordered history ->
  exists old,
    history = old ++ in_window history cutoff /\
    Forall (fun r => (cutoff <=? fst r) = false) old.
Proof.
  unfold in_window. induction history as [|a history IH]; intros Hord.
  - exists []. split; [reflexivity | constructor].
  - simpl. destruct (cutoff <=? fst a) eqn:Ea.
    + exists []. simpl.
      assert (Hall : filter (fun r => cutoff <=? fst r) history = history).
      { apply forallb_filter_id. apply forallb_forall. intros r Hr.
        apply In_nth_error in Hr. destruct Hr as [n Hn].
        apply leb_trans with (fst a); [exact Ea|].
        apply (Hord 0%nat (S n) a r); auto. lia. }
      rewrite Hall. split; [reflexivity | constructor].
    + destruct (IH (time_ordered_tail _ _ Hord)) as (old & H1 & H2).
      exists (a :: old). simpl. split; [now rewrite <- H1 | now constructor].
Qed.

End Windows.

(** X5.  In a buffer that is in time order the samples of a trailing
    window are the tail of the buffer: everything before them is older than
    the cut-off, so the window is a contiguous run of the latest samples, in
    time order itself. *)
Theorem window_is_buffer_tail : forall history cutoff,
  time_ordered history ->
  exists old,
    history = old ++ in_window history cutoff /\
    Forall (fun r => (cutoff <=? fst r) = false) old /\
    time_ordered (in_window history cutoff).
Proof.
  intros history cutoff Hord.
  destruct (in_window_tail history cutoff Hord) as (old & Hsplit & Hold).
  exists old. split; [exact Hsplit|]. split; [exact Hold|].
  apply (time_ordered_suffix old). now rewrite <- Hsplit.
Qed.

(** The window of [six_points] that starts at 120 s is its last four
    samples. *)
Lemma window_is_buffer_tail_witness :
  exists old,
    six_points = old ++ in_window six_points 120 /\
    Forall (fun r => (120 <=? fst r) = false) old /\
    length (in_window six_points 120) = 4%nat.
Proof.
  destruct (window_is_buffer_tail six_points 120 (ordered_b_sound six_points eq_refl))
    as (old & H1 & H2 & _).
  exists old. repeat split; auto.
Defined.

(** ** The bounded buffer and the statistics *)

Section Eviction.

Lemma filter_none {A : Type} (keep : A -> bool) l :
  Forall (fun x => keep x = false) l -> filter keep l = [].
Proof.
  induction 1 as [|x l Hx _ IH]; simpl; [reflexivity|]. now rewrite Hx.
Qed.

Lemma in_window_idem history cutoff :
  in_window (in_window history cutoff) cutoff = in_window history cutoff.
Proof.
  unfold in_window. apply forallb_filter_id. apply forallb_forall.
  intros r Hr. apply filter_In in Hr. tauto.
Qed.

(** Dropping old samples from a time-ordered buffer leaves a window
    untouched as long as what is kept is at least as long as the window. *)
Lemma in_window_lastn history cutoff n :
  time_ordered history ->
  length (in_window history cutoff) <= n ->
  in_window (lastn n history) cutoff = in_window history cutoff.
Proof.
  intros Hord Hlen.
  destruct (in_window_tail history cutoff Hord) as (old & Hsplit & Hold).
  set (win := in_window history cutoff) in *.
  unfold lastn. rewrite Hsplit at 1 2. rewrite length_app, skipn_app.
  replace (length old + length win - n - length old)%nat with 0%nat by lia.
  cbn [skipn]. unfold in_window at 1. rewrite filter_app.
  rewrite filter_none.
  - simpl. apply in_window_idem.
  - rewrite <- (firstn_skipn (length old + length win - n) old) in Hold.
    apply Forall_app in Hold. tauto.
Qed.

End Eviction.

(** X17.  The capacity of the buffer does not show in the statistics: on
    readings that arrive in time order, a window that holds no more than
    100000 samples is the same on the bounded buffer as on the full
    sequence of readings, and so are the slope, the median and the range
    over it. *)
Theorem eviction_spares_window : forall readings now window_min,
  time_ordered readings ->
  (Z.of_nat (length (in_window readings (now - window_min * 60))) <= HISTORY_MAXLEN)%Z ->
  let buffer := lastn (Z.to_nat HISTORY_MAXLEN) readings in
  in_window buffer (now - window_min * 60) = in_window readings (now - window_min * 60) /\
  slope_over_window now buffer (window_min * 60) =
    slope_over_window now readings (window_min * 60) /\
  median_last_seconds now buffer (window_min * 60) =
    median_last_seconds now readings (window_min * 60) /\
  range_over_window now buffer window_min = range_over_window now readings window_min.
Proof.
  intros readings now window_min Hord Hlen buffer.
  assert (Hwin : in_window buffer (now - window_min * 60) =
                 in_window readings (now - window_min * 60)).
  { apply in_window_lastn; [exact Hord|]. pose proof capacity_positive. lia. }
  unfold slope_over_window, median_last_seconds, range_over_window.
  rewrite Hwin. auto.
Qed.

(** The decision of time order from one sample to the next is sound. *)
Lemma ascending_b_head r rest :
  ascending_b (r :: rest) = true -> (fst r <=? fst r) = true.
Proof.
  destruct rest as [|r' rest]; simpl; [auto|].
  intros H. apply Bool.andb_true_iff in H. destruct H as [H _].
  apply leb_refl_number. now apply leb_number_l in H.
Qed.

Lemma ascending_b_tail r rest :
  ascending_b (r :: rest) = true -> ascending_b rest = true.
Proof.
  destruct rest as [|r' rest]; [reflexivity|].
  change (ascending_b (r :: r' :: rest))
    with ((fst r <=? fst r') && ascending_b (r' :: rest)).
  intros H. apply Bool.andb_true_iff in H. tauto.
Qed.

Lemma ascending_b_from r rest :
  ascending_b (r :: rest) = true ->
  forall j rj, nth_error (r :: rest) j = Some rj -> (fst r <=? fst rj) = true.
Proof.
  intros H j. revert r rest H.
  induction j as [|j IH]; intros r rest H rj Hj.
  - simpl in Hj. injection Hj as <-. now apply ascending_b_head in H.
  - destruct rest as [|r' rest]; [destruct j; discriminate|].
    simpl in Hj.
    change (ascending_b (r :: r' :: rest))
      with ((fst r <=? fst r') && ascending_b (r' :: rest)) in H.
    apply Bool.andb_true_iff in H. destruct H as [Hrr' Hrest].
    apply (leb_trans _ (fst r')); [exact Hrr'|].
    now apply (IH r' rest).
Qed.

Lemma ascending_b_sound history : ascending_b history = true -> time_ordered history.
Proof.
  induction history as [|a rest IH]; intros H i j ri rj Hij Hi Hj.
  - destruct i; discriminate.
  - destruct i as [|i].
    + simpl in Hi. injection Hi as <-. now apply (ascending_b_from a rest H j).
    + destruct j as [|j]; [lia|].
      apply (IH (ascending_b_tail _ _ H) i j ri rj); auto. lia.
Qed.

(** A long experiment: of the 100006 readings of [long_record] the buffer
    has dropped the first six, and the statistics over the last ten
    minutes, which hold six thousand readings, are those of all the
    readings. *)
Lemma eviction_spares_window_witness :
  let now := 10000.6 in
  let buffer := lastn (Z.to_nat HISTORY_MAXLEN) long_record in
  (Z.of_nat (length long_record) =? HISTORY_MAXLEN + 6)%Z = true /\
  (Z.of_nat (length buffer) =? HISTORY_MAXLEN)%Z = true /\
  hd_error long_record = Some (0, 0.5) /\
  hd_error buffer = Some (0.6, 0.5) /\
  (Z.of_nat (length (in_window long_record (now - 10 * 60))) =? 6000)%Z = true /\
  in_window buffer (now - 10 * 60) = in_window long_record (now - 10 * 60) /\
  slope_over_window now buffer (10 * 60) = slope_over_window now long_record (10 * 60) /\
  median_last_seconds now buffer (10 * 60)
    = median_last_seconds now long_record (10 * 60) /\
  range_over_window now buffer 10 = range_over_window now long_record 10.
Proof.
  intros now buffer.
  do 5 (split; [vm_compute; reflexivity|]).
  apply (eviction_spares_window long_record now 10).
  - apply ascending_b_sound. vm_compute. reflexivity.
  - apply Z.leb_le. vm_compute. reflexivity.
Defined.

(** ** Invariants of every run *)

Section RunInvariants.

Lemma log_line_step periods l :
  In l (control_loop periods) ->
  exists c h p, reachable c /\ state c <> STATE_DONE /\
    state_logic c h p (log_slope l) = (log_ctx l, log_notes l).
Proof.
  intros Hin. apply In_nth_error in Hin. destruct Hin as [i Hi].
  destruct (loop_step _ _ _ Hi) as (c & h & p & _ & Hr & Hd & Hs).
  now exists c, h, p.
Qed.

(** Whatever the phase, the state logic leaves a ramp between -10 and
    [MAX_RAMP]. *)
Lemma state_logic_ramp c history p s :
  state c <> STATE_DONE ->
  within (-10) MAX_RAMP (ramp (fst (state_logic c history p s))) = true.
Proof.
  intros Hd. destruct (state c) eqn:Es; try congruence.
  - rewrite (linear_unfold _ _ _ _ Es). now destruct (S_REF <=? s).
  - rewrite (nonlinear_unfold _ history p s Es).
    destruct (Nat.leb _ _); simpl; [reflexivity | apply pid_ramp_within].
  - rewrite (hold_unfold _ history p s Es).
    now destruct (match range_over_window _ _ _ with Some _ => _ | None => _ end).
  - now rewrite (cool_unfold _ history p s Es).
Qed.

(** Outside LINEAR the state logic leaves a target between [START_TEMP]
    and [MAX_TEMP]. *)
Lemma state_logic_temp c history p s :
  state c <> STATE_DONE -> state c <> STATE_LINEAR ->
  within START_TEMP MAX_TEMP (temp (fst (state_logic c history p s))) = true.
Proof.
  intros Hd Hl. destruct (state c) eqn:Es; try congruence.
  - rewrite (nonlinear_unfold _ history p s Es).
    destruct (Nat.leb _ _); simpl; [reflexivity | apply pid_temp_within].
  - rewrite (hold_unfold _ history p s Es).
    now destruct (match range_over_window _ _ _ with Some _ => _ | None => _ end).
  - now rewrite (cool_unfold _ history p s Es).
Qed.

(** The state logic writes a note exactly when it changes the phase. *)
Lemma state_logic_notes c history p s :
  state c <> STATE_DONE ->
  (snd (state_logic c history p s) <> EmptyString <->
   state (fst (state_logic c history p s)) <> state c).
Proof.
  intros Hd. destruct (state c) eqn:Es; try congruence.
  - rewrite (linear_unfold _ _ _ _ Es).
    destruct (S_REF <=? s); simpl; split; congruence.
  - rewrite (nonlinear_unfold _ history p s Es).
    destruct (Nat.leb _ _); simpl; split; congruence.
  - rewrite (hold_unfold _ history p s Es).
    destruct (match range_over_window _ _ _ with Some _ => _ | None => _ end);
      simpl; split; congruence.
  - rewrite (cool_unfold _ history p s Es). simpl. split; congruence.
Qed.

(** One pass of the state logic takes the count of iterations needed up by
    one at most. *)
Lemma state_logic_iterations c history p s :
  reachable c -> state c <> STATE_DONE ->
  iterations_needed (fst (state_logic c history p s)) <= S (iterations_needed c).
Proof.
  intros Hr Hd. destruct (reachable_counters_ok c Hr) as [Hlin Hnl].
  unfold iterations_needed at 2. destruct (state c) eqn:Es; try congruence.
  - destruct (Hlin eq_refl) as [H0 _].
    rewrite (linear_unfold _ _ _ _ Es).
    destruct (S_REF <=? s); unfold iterations_needed; simpl; lia.
  - destruct (Hnl eq_refl) as [Hlt _]. unfold PLATEAU_TICKS in Hlt.
    rewrite (nonlinear_unfold _ history p s Es).
    destruct (plateau_test _ _ _);
      destruct (plateau_counter c) as [|[|[|n]]]; try lia;
      unfold iterations_needed; simpl; lia.
  - rewrite (hold_unfold _ history p s Es).
    destruct (match range_over_window _ _ _ with Some _ => _ | None => _ end);
      unfold iterations_needed; simpl; lia.
  - rewrite (cool_unfold _ history p s Es). unfold iterations_needed; simpl; lia.
Qed.

Lemma iterations_before periods i : forall c,
  ctx_before (control_loop periods) i = Some c -> iterations_needed c <= i.
Proof.
  induction i as [|i IH]; intros c Hc.
  - unfold ctx_before in Hc. simpl in Hc. injection Hc as <-. reflexivity.
  - destruct (ctx_before_S _ _ _ Hc) as (l & Hl & <-).
    destruct (loop_step _ _ _ Hl) as (c0 & h & p & Hc0 & Hr & Hd & Hs).
    specialize (IH c0 Hc0).
    pose proof (state_logic_iterations c0 h p (log_slope l) Hr Hd) as Hstep.
    rewrite Hs in Hstep. simpl in Hstep. lia.
Qed.

Lemma min_iterations_needed c : min_iterations (state c) <= iterations_needed c.
Proof. unfold iterations_needed. destruct (state c); simpl; lia. Qed.


End RunInvariants.

(** X6.  Every line of every run shows a ramp between -10 and [MAX_RAMP]
    degrees a minute. *)
Theorem ramp_always_within_limits : forall periods l,
  In l (control_loop periods) ->
  within (-10) MAX_RAMP (ramp (log_ctx l)) = true.
Proof.
  intros periods l Hin.
  destruct (log_line_step periods l Hin) as (c & h & p & _ & Hd & Hs).
  pose proof (state_logic_ramp c h p (log_slope l) Hd) as H.
  now rewrite Hs in H.
Qed.

(** X7.  Every iteration performed outside the LINEAR phase leaves the
    temperature target between [START_TEMP] and [MAX_TEMP]: only the linear
    ramp can take it out of that range. *)
Theorem target_within_limits_after_linear : forall periods i l c,
  nth_error (control_loop periods) i = Some l ->
  ctx_before (control_loop periods) i = Some c ->
  state c <> STATE_LINEAR ->
  within START_TEMP MAX_TEMP (temp (log_ctx l)) = true.
Proof.
  intros periods i l c Hl Hc Hs.
  destruct (loop_step _ _ _ Hl) as (c0 & h & p & Hc0 & _ & Hd & Hst).
  rewrite Hc in Hc0. injection Hc0 as <-.
  pose proof (state_logic_temp c h p (log_slope l) Hd Hs) as H.
  now rewrite Hst in H.
Qed.

(** X8.  A log line carries a note exactly when its iteration changed the
    phase. *)
Theorem note_iff_phase_change : forall periods i l c,
  nth_error (control_loop periods) i = Some l ->
  ctx_before (control_loop periods) i = Some c ->
  (log_notes l <> EmptyString <-> state (log_ctx l) <> state c).
Proof.
  intros periods i l c Hl Hc.
  destruct (loop_step _ _ _ Hl) as (c0 & h & p & Hc0 & _ & Hd & Hst).
  rewrite Hc in Hc0. injection Hc0 as <-.
  pose proof (state_logic_notes c h p (log_slope l) Hd) as H.
  now rewrite Hst in H.
Qed.

(** X9.  No run is in the PID phase before its first iteration is over, in
    HOLD before its fourth, in COOL before its fifth, or in DONE before its
    sixth. *)
Theorem phases_take_time : forall periods i l,
  nth_error (control_loop periods) i = Some l ->
  min_iterations (state (log_ctx l)) <= S i.
Proof.
  intros periods i l Hl.
  pose proof (iterations_before periods (S i) (log_ctx l) (ctx_before_next _ _ _ Hl)).
  pose proof (min_iterations_needed (log_ctx l)). lia.
Qed.


(** ** Too few readings *)

Section FewReadings.

Lemma deque_append_grows history r :
  length (deque_append history r) <= S (length history).
Proof.
  unfold deque_append.
  destruct (HISTORY_MAXLEN <? Z.of_nat (length (history ++ [r])))%Z;
    destruct history; simpl; rewrite ?length_app; simpl; lia.
Qed.

Lemma record_period_grows p : forall history,
  length (record_period history p) <= length history + length (polled p).
Proof.
  unfold record_period.
  induction (polled p) as [|r rs IH]; intros history; cbn [fold_left length].
  - lia.
  - pose proof (IH (deque_append history r)).
    pose proof (deque_append_grows history r). lia.
Qed.

(** A buffer of fewer than six readings has no slope, so that the slope
    handed to the state logic is zero. *)
Lemma short_buffer_no_slope now history window_sec :
  length history < 6 -> slope_over_window now history window_sec = None.
Proof.
  intros H. unfold slope_over_window, in_window.
  pose proof (filter_length_le (fun r => now - window_sec <=? fst r) history) as Hf.
  destruct (Nat.ltb _ 6) eqn:E; [reflexivity|].
  apply Nat.ltb_ge in E. exfalso. apply Nat.lt_nge in H. apply H.
  eapply Nat.le_trans; [exact E | exact Hf].
Qed.

Lemma linear_with_few_readings periods : forall c history,
  state c = STATE_LINEAR ->
  length history + length (concat (map polled periods)) < 6 ->
  length (control_loop_from c history periods) = length periods /\
  forall l, In l (control_loop_from c history periods) ->
    state (log_ctx l) = STATE_LINEAR /\ log_slope l = 0.
Proof.
  induction periods as [|p ps IH]; intros c history Hs Hfew.
  - split; [reflexivity | contradiction].
  - cbn [map concat] in Hfew. rewrite length_app in Hfew.
    cbn [control_loop_from].
    pose proof (record_period_grows p history) as Hg.
    assert (Hslope : measured_slope (record_period history p) p = 0).
    { unfold measured_slope. rewrite short_buffer_no_slope by lia. reflexivity. }
    rewrite Hslope. rewrite (linear_unfold _ _ _ _ Hs).
    change (S_REF <=? 0) with false. cbv iota.
    set (c' := mkCtx STATE_LINEAR (temp c + FAST_RAMP * dt_min) FAST_RAMP
                 (plateau_counter c) (pid c)).
    destruct (IH c' (record_period history p) eq_refl ltac:(lia)) as [Hlen Hall].
    cbn [state c']. split.
    + simpl. now rewrite Hlen.
    + intros l [<-|Hin]; [split; reflexivity | now apply Hall].
Qed.

End FewReadings.

(** X11.  As long as fewer than six readings have been recorded in all,
    the loop stays in LINEAR: every iteration measures slope zero and keeps
    the phase, one log line per period, whatever the clock and the readings
    are. *)
Theorem linear_until_six_readings : forall periods,
  length (concat (map polled periods)) < 6 ->
  length (control_loop periods) = length periods /\
  forall l, In l (control_loop periods) ->
    state (log_ctx l) = STATE_LINEAR /\ log_slope l = 0.
Proof.
  intros periods H.
  destruct (linear_with_few_readings periods initial [] eq_refl H) as [Hlen Hall].
  split; [exact Hlen | exact Hall].
Qed.

Lemma linear_until_six_readings_witness :
  length (control_loop (repeat quiet_period 56)) = 56%nat /\
  forall l, In l (control_loop (repeat quiet_period 56)) ->
    state (log_ctx l) = STATE_LINEAR /\ log_slope l = 0.
Proof.
  destruct (linear_until_six_readings (repeat quiet_period 56)) as [H1 H2].
  - vm_compute. lia.
  - split; [|exact H2]. rewrite H1. apply repeat_length.
Defined.

(** ** Stale readings in HOLD *)

Section Stale.

(** A finite number minus itself is zero. *)
Lemma finite_sub_diag (x : float) : is_finite_number x = true -> x - x = 0.
Proof.
  unfold is_finite_number. rewrite ltb_spec, abs_spec. intros H.
  apply Prim2SF_inj. rewrite sub_spec.
  change (Prim2SF 0) with (S754_zero false).
  unfold SF64sub, SFsub.
  destruct (Prim2SF x) as [[]|[]| |s m e]; try discriminate; try reflexivity.
  now rewrite Z.sub_diag.
Qed.

Lemma finite_is_number (x : float) : is_finite_number x = true -> is_number x = true.
Proof.
  unfold is_finite_number, is_number, is_nan.
  rewrite ltb_spec, abs_spec, eqb_spec. unfold SFltb, SFeqb.
  destruct (Prim2SF x) as [[]|[]| |[]]; simpl; try discriminate; try reflexivity;
    intros _; rewrite Z.compare_refl;
    change (Pos.compare_cont Eq) with Pos.compare; now rewrite Pos.compare_refl.
Qed.

Lemma ltb_irrefl (x : float) : (x <? x) = false.
Proof.
  destruct (x <? x) eqn:E; [|reflexivity].
  pose proof (ltb_leb _ _ E) as H1. pose proof (ltb_not_geb _ _ E) as H2. congruence.
Qed.

Lemma max_list_repeat v n : Py.max_list v (repeat v n) = v.
Proof.
  unfold Py.max_list. induction n as [|n IH]; simpl; [reflexivity|].
  unfold Py.max at 2. now rewrite ltb_irrefl.
Qed.

Lemma min_list_repeat v n : Py.min_list v (repeat v n) = v.
Proof.
  unfold Py.min_list. induction n as [|n IH]; simpl; [reflexivity|].
  unfold Py.min at 2. now rewrite ltb_irrefl.
Qed.

End Stale.

(** X12.  A HOLD iteration enters COOL whenever the readings in its
    ten-minute range window all show one finite value and its ten-minute
    slope window holds fewer than six readings: the range is zero and the
    slope, being undefined, counts as zero. *)
Theorem hold_few_equal_readings_cool : forall c history p s v n,
  state c = STATE_HOLD ->
  is_finite_number v = true ->
  map snd (in_window history (t_range p - STABILITY_WINDOW_MIN * 60)) = repeat v (S n) ->
  length (in_window history (t_slope10 p - STABILITY_WINDOW_MIN * 60)) < 6 ->
  range_over_window (t_range p) history STABILITY_WINDOW_MIN = Some 0 /\
  slope_over_window (t_slope10 p) history (STABILITY_WINDOW_MIN * 60) = None /\
  state (fst (state_logic c history p s)) = STATE_COOL.
Proof.
  intros c history p s v n Hs Hv Hvals Hlen.
  assert (Hr : range_over_window (t_range p) history STABILITY_WINDOW_MIN = Some 0).
  { unfold range_over_window. rewrite Hvals. simpl repeat. cbv iota.
    now rewrite max_list_repeat, min_list_repeat, finite_sub_diag. }
  assert (Hn : slope_over_window (t_slope10 p) history (STABILITY_WINDOW_MIN * 60) = None).
  { unfold slope_over_window. apply Nat.ltb_lt in Hlen. now rewrite Hlen. }
  split; [exact Hr|]. split; [exact Hn|].
  rewrite (hold_unfold c history p s Hs), Hr, Hn. reflexivity.
Qed.

Lemma hold_few_equal_readings_cool_witness :
  state (fst (state_logic holding blackout_history blackout_period 0)) = STATE_COOL.
Proof.
  apply (hold_few_equal_readings_cool holding blackout_history blackout_period 0 0.5 0).
  - reflexivity.
  - reflexivity.
  - vm_compute. reflexivity.
  - vm_compute. lia.
Defined.

(** ** Matching by derivatives *)

Section Derivatives.

Lemma accepts_cat_inv r s t :
  accepts (ReCat r s) t -> exists u v, t = u ++ v /\ accepts r u /\ accepts s v.
Proof. intros H. inversion H; subst. eauto. Qed.

Lemma accepts_alt_inv r s t : accepts (ReAlt r s) t -> accepts r t \/ accepts s t.
Proof. intros H. inversion H; subst; auto. Qed.

Lemma nullable_accepts r : nullable r = true <-> accepts r [].
Proof.
  induction r; simpl.
  - split; [discriminate | intros H; inversion H].
  - split; [constructor | reflexivity].
  - split; [discriminate | intros H; inversion H].
  - split; [discriminate | intros H; inversion H].
  - rewrite Bool.andb_true_iff, IHr1, IHr2. split.
    + intros [H1 H2]. exact (acc_cat _ _ [] [] H1 H2).
    + intros H. apply accepts_cat_inv in H. destruct H as (u & v & Huv & Hu & Hv).
      symmetry in Huv. apply app_eq_nil in Huv. destruct Huv as [-> ->]. now split.
  - rewrite Bool.orb_true_iff, IHr1, IHr2. split.
    + intros [H|H]; [now apply acc_alt_l | now apply acc_alt_r].
    + intros H. inversion H; subst; auto.
  - split; [constructor | reflexivity].
Qed.

(** A starred expression that accepts a non-empty text accepts it as a
    non-empty first piece followed by more. *)
Lemma star_cons r a s :
  accepts (ReStar r) (a :: s) ->
  exists u v, s = u ++ v /\ accepts r (a :: u) /\ accepts (ReStar r) v.
Proof.
  intros H. remember (ReStar r) as rs eqn:Er. remember (a :: s) as t eqn:Et.
  induction H as [| | | | | | |r' u v Hu _ Hv IH]; try discriminate.
  injection Er as ->. destruct u as [|b u].
  - simpl in Et. now apply IH.
  - simpl in Et. injection Et as Ea Es. subst b s. now exists u, v.
Qed.

Lemma derive_accepts r : forall a s, accepts (derive a r) s <-> accepts r (a :: s).
Proof.
  induction r as [| |b| |r1 IH1 r2 IH2|r1 IH1 r2 IH2|r IH]; intros a s; simpl.
  - split; intros H; inversion H.
  - split; intros H; inversion H.
  - destruct (Ascii.eqb a b) eqn:E.
    + apply Ascii.eqb_eq in E. subst. split; intros H; inversion H; subst; constructor.
    + split; intros H; inversion H; subst. rewrite Ascii.eqb_refl in E. discriminate.
  - destruct (is_digit a) eqn:E.
    + split; intros H; inversion H; subst; now constructor.
    + split; intros H; inversion H; subst. congruence.
  - assert (Hcat : accepts (ReCat (derive a r1) r2) s <->
                   exists u v, s = u ++ v /\ accepts r1 (a :: u) /\ accepts r2 v).
    { split.
      - intros H. apply accepts_cat_inv in H. destruct H as (u & v & -> & Hu & Hv).
        exists u, v. split; [reflexivity|]. split; [now apply IH1 | exact Hv].
      - intros (u & v & -> & Hu & Hv). constructor; [now apply IH1 | exact Hv]. }
    assert (Hgoal : accepts (ReCat r1 r2) (a :: s) <->
                    (exists u v, s = u ++ v /\ accepts r1 (a :: u) /\ accepts r2 v) \/
                    (accepts r1 [] /\ accepts r2 (a :: s))).
    { split.
      - intros H. apply accepts_cat_inv in H. destruct H as (u & v & Huv & Hu & Hv).
        destruct u as [|b u].
        + simpl in Huv. subst. right. now split.
        + simpl in Huv. injection Huv as -> ->. left. now exists u, v.
      - intros [(u & v & -> & Hu & Hv)|[Hu Hv]].
        + exact (acc_cat _ _ (a :: u) v Hu Hv).
        + exact (acc_cat _ _ [] (a :: s) Hu Hv). }
    rewrite Hgoal. destruct (nullable r1) eqn:En.
    + apply nullable_accepts in En. split.
      * intros H. apply accepts_alt_inv in H. destruct H as [H|H];
          [left; now apply Hcat|].
        right. split; [exact En | now apply IH2].
      * intros [H|[_ H]]; [apply acc_alt_l; now apply Hcat|].
        apply acc_alt_r. now apply IH2.
    + rewrite Hcat. split; [now left|].
      intros [H|[H _]]; [exact H|].
      apply nullable_accepts in H. congruence.
  - split; intros H; apply accepts_alt_inv in H; destruct H as [H|H];
      [apply acc_alt_l | apply acc_alt_r | apply acc_alt_l | apply acc_alt_r];
      first [now apply IH1 | now apply IH2].
  - split.
    + intros H. apply accepts_cat_inv in H. destruct H as (u & v & -> & Hu & Hv).
      apply IH in Hu. exact (acc_star_app _ (a :: u) v Hu Hv).
    + intros H. apply star_cons in H. destruct H as (u & v & -> & Hu & Hv).
      constructor; [now apply IH | exact Hv].
Qed.

Lemma full_match_accepts s : forall r, full_match r s = true <-> accepts r s.
Proof.
  induction s as [|a s IH]; intros r; simpl.
  - apply nullable_accepts.
  - rewrite IH. apply derive_accepts.
Qed.

End Derivatives.

(** ** What [NUM_PATTERN] accepts *)

Section NumPattern.

Lemma accepts_digit t : accepts ReDigit t <-> exists a, t = [a] /\ is_digit a = true.
Proof.
  split.
  - intros H. inversion H; subst. eauto.
  - intros (a & -> & Ha). now constructor.
Qed.

Lemma accepts_char c t : accepts (ReChar c) t <-> t = [c].
Proof.
  split.
  - intros H. now inversion H.
  - intros ->. constructor.
Qed.

Lemma accepts_opt r t : accepts (re_opt r) t <-> t = [] \/ accepts r t.
Proof.
  unfold re_opt. split.
  - intros H. apply accepts_alt_inv in H. destruct H as [H|H]; [now right|].
    left. now inversion H.
  - intros [->|H]; [apply acc_alt_r; constructor | now apply acc_alt_l].
Qed.

Lemma accepts_cat r s t :
  accepts (ReCat r s) t <-> exists u v, t = u ++ v /\ accepts r u /\ accepts s v.
Proof.
  split; [apply accepts_cat_inv|].
  intros (u & v & -> & Hu & Hv). now constructor.
Qed.

Lemma accepts_digit_then r t :
  accepts (ReCat ReDigit r) t <->
  exists a t', t = a :: t' /\ is_digit a = true /\ accepts r t'.
Proof.
  rewrite accepts_cat. split.
  - intros (u & v & -> & Hu & Hv). apply accepts_digit in Hu.
    destruct Hu as (a & -> & Ha). now exists a, v.
  - intros (a & t' & -> & Ha & Ht). exists [a], t'.
    repeat split; auto. now constructor.
Qed.

Lemma accepts_digits t : accepts (ReStar ReDigit) t <-> forallb is_digit t = true.
Proof.
  split.
  - intros H. remember (ReStar ReDigit) as r eqn:Er.
    induction H as [| | | | | | |r' u v Hu _ Hv IH]; try discriminate; [reflexivity|].
    injection Er as ->. apply accepts_digit in Hu. destruct Hu as (a & -> & Ha).
    simpl. rewrite Ha. now apply IH.
  - induction t as [|a t IH]; intros H; [constructor|].
    simpl in H. apply Bool.andb_true_iff in H. destruct H as [Ha Ht].
    apply (acc_star_app ReDigit [a] t); [now constructor | now apply IH].
Qed.

Lemma accepts_integer_part t :
  accepts (re_plus ReDigit) t <-> t <> [] /\ forallb is_digit t = true.
Proof.
  unfold re_plus. rewrite accepts_digit_then. split.
  - intros (a & t' & -> & Ha & Ht). apply accepts_digits in Ht.
    split; [discriminate|]. simpl. now rewrite Ha.
  - intros [Hne H]. destruct t as [|a t']; [congruence|].
    simpl in H. apply Bool.andb_true_iff in H. destruct H as [Ha Ht].
    exists a, t'. repeat split; auto. now apply accepts_digits.
Qed.

(** One more optional digit in front of a run of at most [n] digits. *)
Lemma accepts_up_to r n :
  (forall t, accepts r t <-> forallb is_digit t = true /\ length t <= n) ->
  forall t, accepts (re_opt (ReCat ReDigit r)) t <->
            forallb is_digit t = true /\ length t <= S n.
Proof.
  intros Hr t. rewrite accepts_opt, accepts_digit_then. split.
  - intros [->|(a & t' & -> & Ha & Ht)]; [simpl; split; [reflexivity | lia]|].
    apply Hr in Ht. destruct Ht as [Hd Hl]. simpl. rewrite Ha. split; [exact Hd | lia].
  - intros [Hd Hl]. destruct t as [|a t']; [now left|]. right.
    simpl in Hd, Hl. apply Bool.andb_true_iff in Hd. destruct Hd as [Ha Ht].
    exists a, t'. repeat split; auto. apply Hr. split; [exact Ht | lia].
Qed.

Lemma accepts_fraction t :
  accepts
    (ReCat ReDigit (re_opt (ReCat ReDigit (re_opt (ReCat ReDigit (re_opt ReDigit)))))) t
  <-> forallb is_digit t = true /\ 1 <= length t <= 4.
Proof.
  assert (H1 : forall t, accepts (re_opt ReDigit) t <->
                         forallb is_digit t = true /\ length t <= 1).
  { intros u. rewrite accepts_opt, accepts_digit. split.
    - intros [->|(a & -> & Ha)]; simpl; [split; [reflexivity | lia]|].
      rewrite Ha. split; [reflexivity | lia].
    - intros [Hd Hl]. destruct u as [|a [|b u]]; [now left| |simpl in Hl; lia].
      right. exists a. split; [reflexivity|]. simpl in Hd. now rewrite Bool.andb_true_r in Hd. }
  pose proof (accepts_up_to _ _ H1) as H2.
  pose proof (accepts_up_to _ _ H2) as H3.
  rewrite accepts_digit_then. split.
  - intros (a & t' & -> & Ha & Ht). apply H3 in Ht. destruct Ht as [Hd Hl].
    simpl. rewrite Ha. split; [exact Hd | lia].
  - intros [Hd Hl]. destruct t as [|a t']; [simpl in Hl; lia|].
    simpl in Hd, Hl. apply Bool.andb_true_iff in Hd. destruct Hd as [Ha Ht].
    exists a, t'. repeat split; auto. apply H3. split; [exact Ht | lia].
Qed.

Lemma accepts_num_pattern s : accepts NUM_PATTERN s <-> reading_shape s.
Proof.
  unfold NUM_PATTERN, reading_shape. split.
  - intros H.
    apply accepts_cat in H. destruct H as (sign & r1 & -> & Hsign & H).
    apply accepts_cat in H. destruct H as (ip & r2 & -> & Hip & H).
    apply accepts_cat in H. destruct H as (dot & fp & -> & Hdot & Hfp).
    apply accepts_opt in Hsign. apply accepts_integer_part in Hip.
    apply accepts_char in Hdot. apply accepts_fraction in Hfp. subst dot.
    exists sign, ip, fp. split; [reflexivity|].
    split; [destruct Hsign as [->|Hs]; [now left | right; now apply accepts_char]|].
    destruct Hip, Hfp. auto.
  - intros (sign & ip & fp & -> & Hsign & Hne & Hip & Hfp & Hlen).
    apply acc_cat.
    { apply accepts_opt. destruct Hsign as [->| ->]; [now left | right; constructor]. }
    apply acc_cat; [now apply accepts_integer_part|].
    apply (acc_cat _ _ ["."%char] fp); [constructor|].
    now apply accepts_fraction.
Qed.

Lemma lstrip_head s a t : lstrip s = a :: t -> is_space a = false.
Proof.
  induction s as [|b s IH]; simpl; [discriminate|].
  destruct (is_space b) eqn:E; [exact IH|].
  intros H. injection H as <- _. exact E.
Qed.

(** A stripped text does not end in a newline, so that the pattern has to
    match all of it. *)
Lemma pattern_match_stripped r s :
  pattern_match r (strip s) = full_match r (strip s).
Proof.
  unfold pattern_match, strip. rewrite rev_involutive.
  destruct (lstrip (rev (lstrip s))) as [|a t] eqn:E.
  - apply Bool.orb_false_r.
  - apply lstrip_head in E.
    destruct (Ascii.eqb a "010") eqn:Ea.
    + apply Ascii.eqb_eq in Ea. subst a. discriminate.
    + apply Bool.orb_false_r.
Qed.

Lemma pattern_match_stripped' r el :
  pattern_match r (stripped_text el) = full_match r (stripped_text el).
Proof. apply pattern_match_stripped. Qed.

End NumPattern.

Section ReadOut.

Variable py_float : Text -> float.

Lemma read_absorbance_some el val :
  read_absorbance py_float el = Some val <->
  reading_shape (stripped_text el) /\ val = py_float (stripped_text el).
Proof.
  unfold read_absorbance. rewrite pattern_match_stripped'.
  destruct (full_match NUM_PATTERN (stripped_text el)) eqn:E.
  - apply full_match_accepts, accepts_num_pattern in E.
    split; [intros H; injection H as <-; auto | intros [_ ->]; reflexivity].
  - split; [discriminate|]. intros [H _].
    apply accepts_num_pattern, full_match_accepts in H. congruence.
Qed.

End ReadOut.

(** X13.  [read_absorbance] yields a value exactly for a text which, once
    stripped of surrounding white space, is an optional minus sign, one or
    more digits, a point and one to four digits; the value is the
    conversion of the stripped text.  Any other text gives no value. *)
Theorem read_absorbance_accepts : forall py_float el,
  (forall val, read_absorbance py_float el = Some val <->
     reading_shape (stripped_text el) /\ val = py_float (stripped_text el)) /\
  (read_absorbance py_float el = None <-> ~ reading_shape (stripped_text el)).
Proof.
  intros py_float el. split; [intros val; apply read_absorbance_some|].
  destruct (read_absorbance py_float el) as [v|] eqn:E.
  - apply read_absorbance_some in E. destruct E as [Hs _].
    split; [discriminate | contradiction].
  - split; [|reflexivity]. intros _ Hs.
    assert (H : read_absorbance py_float el = Some (py_float (stripped_text el)))
      by (apply read_absorbance_some; now split).
    congruence.
Qed.

Section Polling.

Variable py_float : Text -> float.

Lemma poll_records passes : forall history,
  poll py_float history passes =
  fold_left deque_append (readings_of py_float passes) history.
Proof.
  unfold poll, readings_of.
  induction passes as [|pass passes IH]; intros history; [reflexivity|].
  cbn [fold_left flat_map]. rewrite fold_left_app, IH.
  now destruct (read_absorbance py_float (snd pass)).
Qed.

Lemma readings_of_length passes :
  length (readings_of py_float passes) <= length passes.
Proof.
  unfold readings_of. induction passes as [|pass passes IH]; [reflexivity|].
  cbn [flat_map]. rewrite length_app.
  destruct (read_absorbance py_float (snd pass)); cbn [length Nat.add].
  - apply le_n_S, IH.
  - apply Nat.le_le_succ_r, IH.
Qed.

End Polling.

(** X14.  The polling sub-loop records, in order, the passes whose text
    reads as a number, each with its clock value, and skips the others
    without touching the buffer: polling is recording the readings of the
    passes. *)
Theorem polling_records_readings : forall py_float history passes t1 t2 t3,
  poll py_float history passes =
    record_period history (mkPeriod (readings_of py_float passes) t1 t2 t3) /\
  length (readings_of py_float passes) <= length passes /\
  (forall r, In r (readings_of py_float passes) <->
     exists el, In (fst r, el) passes /\
       reading_shape (stripped_text el) /\ snd r = py_float (stripped_text el)).
Proof.
  intros py_float history passes t1 t2 t3.
  split; [apply poll_records|]. split; [apply readings_of_length|].
  intros r. unfold readings_of. rewrite in_flat_map. split.
  - intros ([t el] & Hin & Hr). simpl in Hr.
    destruct (read_absorbance py_float el) as [val|] eqn:E; [|contradiction].
    destruct Hr as [<-|[]]. simpl.
    apply read_absorbance_some in E. destruct E as [Hs ->].
    now exists el.
  - intros (el & Hin & Hs & Hv). exists (fst r, el). split; [exact Hin|]. simpl.
    rewrite (proj2 (read_absorbance_some py_float el (snd r)) (conj Hs Hv)).
    left. now destruct r.
Qed.

(** ** Choosing a UI element *)

Section FirstMinimum.

Context {A : Type} (lt : A -> A -> bool).
Hypothesis lt_trans : forall x y z, lt x y = true -> lt y z = true -> lt x z = true.
Hypothesis lt_negtrans :
  forall x y z, lt x y = false -> lt y z = false -> lt x z = false.

(** The head of a stable sort is the first of the least elements. *)
Lemma sort_by_head_split l : forall e rest,
  sort_by lt l = e :: rest ->
  exists pre post,
    l = pre ++ e :: post /\
    (forall x, In x pre -> lt e x = true) /\
    (forall x, In x post -> lt x e = false).
Proof.
  induction l as [|x l IH]; intros e rest Hs; [discriminate|].
  simpl in Hs. destruct (sort_by lt l) as [|m r] eqn:El.
  - assert (l = []).
    { apply length_zero_iff_nil. rewrite <- (sort_by_length lt l), El. reflexivity. }
    subst l. simpl in Hs. injection Hs as <- _.
    exists [], []. repeat split; auto; contradiction.
  - destruct (IH m r eq_refl) as (pre & post & -> & Hpre & Hpost).
    simpl in Hs. destruct (lt m x) eqn:E.
    + injection Hs as <- _. exists (x :: pre), post.
      repeat split; auto. intros y [<-|Hy]; auto.
    + injection Hs as <- _. exists [], (pre ++ m :: post).
      split; [reflexivity|]. split; [intros ? []|].
      intros y Hy. apply in_app_or in Hy. destruct Hy as [Hy|[<-|Hy]].
      * destruct (lt y x) eqn:Ey; [|reflexivity].
        rewrite (lt_trans m y x (Hpre y Hy) Ey) in E. discriminate.
      * exact E.
      * apply lt_negtrans with m; [now apply Hpost | exact E].
Qed.

End FirstMinimum.

Section Picking.

Lemma key_lt_trans a b c : key_lt a b = true -> key_lt b c = true -> key_lt a c = true.
Proof.
  unfold key_lt. rewrite !Bool.orb_true_iff, !Bool.andb_true_iff.
  rewrite !Z.ltb_lt, !Z.eqb_eq. lia.
Qed.

Lemma key_lt_negtrans a b c :
  key_lt a b = false -> key_lt b c = false -> key_lt a c = false.
Proof.
  unfold key_lt. rewrite !Bool.orb_false_iff, !Bool.andb_false_iff.
  rewrite !Z.ltb_ge, !Z.eqb_neq. lia.
Qed.

(** A split of the mapped, filtered list comes from a split of the list. *)
Lemma map_filter_split {A B : Type} (f : A -> B) (keep : A -> bool) l :
  forall pre' y post',
  map f (filter keep l) = pre' ++ y :: post' ->
  exists pre e post,
    l = pre ++ e :: post /\ keep e = true /\ f e = y /\
    map f (filter keep pre) = pre' /\ map f (filter keep post) = post'.
Proof.
  induction l as [|a l IH]; intros pre' y post' H.
  - destruct pre'; discriminate.
  - simpl in H. destruct (keep a) eqn:Ea.
    + destruct pre' as [|b pre'].
      * simpl in H. injection H as H1 H2.
        exists [], a, l. repeat split; auto.
      * simpl in H. injection H as H1 H2.
        destruct (IH _ _ _ H2) as (pre & e & post & -> & He & Hf & Hp & Hq).
        exists (a :: pre), e, post. simpl. rewrite Ea. simpl.
        repeat split; auto. now rewrite H1, Hp.
    + destruct (IH _ _ _ H) as (pre & e & post & -> & He & Hf & Hp & Hq).
      exists (a :: pre), e, post. simpl. rewrite Ea. repeat split; auto.
Qed.

Lemma min_by_key_split {A : Type} (key : A -> Z) rest : forall seen best,
  (exists pre post, seen = pre ++ best :: post /\
     (forall x, In x pre -> (key best < key x)%Z) /\
     (forall x, In x post -> (key best <= key x)%Z)) ->
  exists pre post,
    seen ++ rest = pre ++ min_by_key key best rest :: post /\
    (forall x, In x pre -> (key (min_by_key key best rest) < key x)%Z) /\
    (forall x, In x post -> (key (min_by_key key best rest) <= key x)%Z).
Proof.
  unfold min_by_key.
  induction rest as [|x rest IH]; intros seen best (pre & post & Hs & Hpre & Hpost).
  - simpl. rewrite app_nil_r. now exists pre, post.
  - cbn [fold_left].
    replace (seen ++ x :: rest) with ((seen ++ [x]) ++ rest)
      by now rewrite <- app_assoc.
    apply IH. destruct (key x <? key best)%Z eqn:E.
    + apply Z.ltb_lt in E. exists seen, []. split; [reflexivity|].
      split; [|contradiction].
      intros y Hy. rewrite Hs in Hy. apply in_app_or in Hy.
      destruct Hy as [Hy|[<-|Hy]]; [specialize (Hpre y Hy) | | specialize (Hpost y Hy)];
        lia.
    + apply Z.ltb_ge in E. exists pre, (post ++ [x]).
      split; [rewrite Hs, <- app_assoc; reflexivity|].
      split; [exact Hpre|].
      intros y Hy. apply in_app_or in Hy. destruct Hy as [Hy|[<-|[]]]; auto.
Qed.

End Picking.

(** X15.  [get_absorbance_element] fails exactly when no descendant shows
    a text that reads as a number.  Otherwise it returns such a descendant
    with the least [(top, left)] corner, and among several at that corner
    the first in the order of the descendants. *)
Theorem get_absorbance_element_topmost : forall descendants,
  let numeric := fun el => pattern_match NUM_PATTERN (stripped_text el) in
  (get_absorbance_element descendants = None <->
     forall el, In el descendants -> numeric el = false) /\
  (forall e, get_absorbance_element descendants = Some e ->
     exists pre post,
       descendants = pre ++ e :: post /\ numeric e = true /\
       (forall x, In x pre -> numeric x = true ->
                  key_lt (sort_key e) (sort_key x) = true) /\
       (forall x, In x post -> numeric x = true ->
                  key_lt (sort_key x) (sort_key e) = false)).
Proof.
  intros descendants numeric. unfold get_absorbance_element. fold numeric.
  set (tag := fun el : Element => (sort_key el, el)).
  set (lt := fun x y : Z * Z * Element => key_lt (fst x) (fst y)).
  destruct (sort_by lt (map tag (filter numeric descendants))) as [|c rest] eqn:Es.
  - split; [|discriminate]. split; [|reflexivity]. intros _ el Hel.
    assert (Hnil : filter numeric descendants = []).
    { apply length_zero_iff_nil.
      rewrite <- (length_map tag), <- (sort_by_length lt), Es. reflexivity. }
    destruct (numeric el) eqn:E; [|reflexivity].
    assert (Hin : In el (filter numeric descendants)) by (apply filter_In; now split).
    rewrite Hnil in Hin. contradiction.
  - split.
    + split; [discriminate|]. intros Hall. exfalso.
      assert (Hin : In c (map tag (filter numeric descendants))).
      { eapply Permutation_in; [apply (sort_by_perm lt)|]. rewrite Es. now left. }
      apply in_map_iff in Hin. destruct Hin as (el & _ & Hin).
      apply filter_In in Hin. destruct Hin as [Hin Hnum].
      rewrite (Hall el Hin) in Hnum. discriminate.
    + intros e He. injection He as <-.
      destruct (sort_by_head_split lt
                  (fun x y z => key_lt_trans (fst x) (fst y) (fst z))
                  (fun x y z => key_lt_negtrans (fst x) (fst y) (fst z))
                  _ _ _ Es) as (pre' & post' & Hsplit & Hpre & Hpost).
      destruct (map_filter_split tag numeric descendants _ _ _ Hsplit)
        as (pre & e & post & -> & He & <- & <- & <-).
      exists pre, post. simpl. repeat split; auto.
      * intros x Hx Hnum. apply (Hpre (tag x)). apply in_map, filter_In. now split.
      * intros x Hx Hnum. apply (Hpost (tag x)). apply in_map, filter_In. now split.
Qed.

(** X16.  [_pick_tempapp_edit] fails exactly when there is no Edit control.
    Otherwise it returns the control nearest to the reference point, in
    horizontal plus vertical distance, and among several at that distance
    the first. *)
Theorem pick_tempapp_edit_nearest : forall edits,
  (_pick_tempapp_edit edits = None <-> edits = []) /\
  (forall e, _pick_tempapp_edit edits = Some e ->
     exists pre post,
       edits = pre ++ e :: post /\
       (forall x, In x pre -> (edit_distance e < edit_distance x)%Z) /\
       (forall x, In x post -> (edit_distance e <= edit_distance x)%Z)).
Proof.
  intros edits. unfold _pick_tempapp_edit. destruct edits as [|e0 rest].
  - split; [split; reflexivity | discriminate].
  - split; [split; discriminate|].
    intros e He. injection He as <-.
    apply (min_by_key_split edit_distance rest [e0] e0).
    exists [], []. repeat split; auto; contradiction.
Qed.

(** ** The further statements on sample data *)

Lemma buffer_keeps_latest_readings_witness :
  exists l p,
    nth_error (control_loop experiment) 1 = Some l /\
    nth_error experiment 1 = Some p /\
    log_slope l = measured_slope (history_after (firstn 2 experiment)) p /\
    length (history_after (firstn 2 experiment)) = 12%nat.
Proof.
  destruct (buffer_keeps_latest_readings experiment) as (_ & _ & Hslope).
  destruct (nth_error (control_loop experiment) 1) as [l|] eqn:El;
    [|vm_compute in El; discriminate].
  destruct (Hslope 1%nat l El) as (p & Hp & Hs).
  exists l, p. repeat split; auto.
Defined.

Lemma ramp_always_within_limits_witness :
  exists l, nth_error (control_loop experiment) 1 = Some l /\
    ramp (log_ctx l) = 10 /\ within (-10) MAX_RAMP (ramp (log_ctx l)) = true.
Proof.
  destruct (nth_error (control_loop experiment) 1) as [l|] eqn:El;
    [|vm_compute in El; discriminate].
  exists l. split; [reflexivity|]. split.
  - vm_compute in El. injection El as <-. reflexivity.
  - exact (ramp_always_within_limits experiment l (nth_error_In _ _ El)).
Defined.

Lemma target_within_limits_after_linear_witness :
  exists l, nth_error (control_loop experiment) 1 = Some l /\
    temp (log_ctx l) = 51 /\
    within START_TEMP MAX_TEMP (temp (log_ctx l)) = true.
Proof.
  destruct (nth_error (control_loop experiment) 1) as [l|] eqn:El;
    [|vm_compute in El; discriminate].
  destruct (ctx_before (control_loop experiment) 1) as [c|] eqn:Ec;
    [|vm_compute in Ec; discriminate].
  assert (Hs : state c <> STATE_LINEAR)
    by (vm_compute in Ec; injection Ec as <-; discriminate).
  exists l. split; [reflexivity|]. split.
  - vm_compute in El. injection El as <-. reflexivity.
  - exact (target_within_limits_after_linear experiment 1 l c El Ec Hs).
Defined.

Lemma note_iff_phase_change_witness :
  exists l, nth_error (control_loop experiment) 3 = Some l /\
    state (log_ctx l) = STATE_HOLD /\ log_notes l <> EmptyString.
Proof.
  destruct (nth_error (control_loop experiment) 3) as [l|] eqn:El;
    [|vm_compute in El; discriminate].
  destruct (ctx_before (control_loop experiment) 3) as [c|] eqn:Ec;
    [|vm_compute in Ec; discriminate].
  assert (Hh : state (log_ctx l) = STATE_HOLD)
    by (vm_compute in El; injection El as <-; reflexivity).
  assert (Hc : state c = STATE_NONLINEAR)
    by (vm_compute in Ec; injection Ec as <-; reflexivity).
  exists l. split; [reflexivity|]. split; [exact Hh|].
  apply (note_iff_phase_change experiment 3 l c El Ec). congruence.
Defined.

Lemma phases_take_time_witness :
  exists l, nth_error (control_loop experiment) 3 = Some l /\
    state (log_ctx l) = STATE_HOLD /\ min_iterations (state (log_ctx l)) <= 4.
Proof.
  destruct (nth_error (control_loop experiment) 3) as [l|] eqn:El;
    [|vm_compute in El; discriminate].
  exists l. split; [reflexivity|]. split.
  - vm_compute in El. injection El as <-. reflexivity.
  - exact (phases_take_time experiment 3 l El).
Defined.


Lemma read_absorbance_accepts_witness :
  read_absorbance (fun _ => 0.5) (mkElement (Some (text " 0.5321 ")) 40 300) = Some 0.5 /\
  ~ reading_shape (stripped_text (mkElement (Some (text "12.34567")) 5 5)).
Proof.
  split.
  - apply (proj1 (read_absorbance_accepts (fun _ => 0.5) _)).
    split; [|reflexivity].
    exists [], (text "0"), (text "5321"). repeat split; auto; try discriminate.
    simpl. lia.
  - apply (proj2 (read_absorbance_accepts (fun _ => 0.5) _)).
    vm_compute. reflexivity.
Defined.

Lemma polling_records_readings_witness :
  poll (fun s => Py.of_len (length s)) [] sample_passes = [(1, 3); (3, 5)].
Proof.
  destruct (polling_records_readings (fun s => Py.of_len (length s)) []
              sample_passes 0 0 0) as (Hpoll & _ & _).
  rewrite Hpoll. vm_compute. reflexivity.
Defined.

Lemma get_absorbance_element_topmost_witness :
  let e := mkElement (Some (text "0.71")) 40 120 in
  get_absorbance_element readout_window = Some e /\
  exists pre post,
    readout_window = pre ++ e :: post /\
    (forall x, In x pre -> pattern_match NUM_PATTERN (stripped_text x) = true ->
               key_lt (sort_key e) (sort_key x) = true).
Proof.
  intros e.
  assert (Hget : get_absorbance_element readout_window = Some e)
    by (vm_compute; reflexivity).
  split; [exact Hget|].
  destruct (get_absorbance_element_topmost readout_window) as (_ & Hsome).
  destruct (Hsome _ Hget) as (pre & post & Hsplit & _ & Hpre & _).
  exists pre, post. split; [exact Hsplit | exact Hpre].
Defined.

Lemma pick_tempapp_edit_nearest_witness :
  exists e pre post,
    _pick_tempapp_edit edit_controls = Some e /\
    edit_controls = pre ++ e :: post /\
    edit_distance e = 20%Z /\
    (forall x, In x pre -> (edit_distance e < edit_distance x)%Z) /\
    (forall x, In x post -> (edit_distance e <= edit_distance x)%Z).
Proof.
  destruct (_pick_tempapp_edit edit_controls) as [e|] eqn:E;
    [|vm_compute in E; discriminate].
  destruct (proj2 (pick_tempapp_edit_nearest edit_controls) e E)
    as (pre & post & Hsplit & Hpre & Hpost).
  exists e, pre, post. repeat split; auto.
  vm_compute in E. injection E as <-. reflexivity.
Defined.
